(** * The issue-script engine of jira-cli: variable resolution,
      interpolation, translation of actions and the driver loop

    The development embeds the Go package [script]
    (runScript, Script.SetupArgs, interpolateVars) and proves the
    properties the specification states about it.

    Conventions of the embedding.
    - A Go [string] is a byte string: Stdlib's [string] (a list of 8-bit
      [ascii]).  Append is written [+:+].
    - [map[string]string] (the [define] section) is a [gmap string string].
    - A value of dynamic type [any] read from the script is a [value]
      tree.  A [map[string]any] is kept as the list of its entries in the
      order in which a [range] statement yields them; Go leaves that
      order to the runtime, so every statement below is made for an
      arbitrary list of entries.
    - A Go function returning [(T, error)] returns a [result T]; a
      run-time panic (index out of range) is the third outcome [Panic].
    - The collaborators (user lookup, command dispatch) are parameters
      threading an abstract world [W]. *)

From Stdlib Require Import ZArith Ascii String List Sorting.Sorted.
From stdpp Require Import gmap strings list fin_maps sorting.

Open Scope string_scope.
Open Scope list_scope.
Open Scope Z_scope.

(** ** Dynamic values *)

(** What [yaml.v3] puts behind an [any]: a string, a [[]any], a
    [map[string]any], or a leaf of some other dynamic type (int, bool,
    nil, ...), of which the engine only ever uses the type name ([%T])
    and the default rendering ([%v]). *)
#[warnings="-register-all"]
Inductive value : Type :=
| VStr (s : string)
| VSeq (l : list value)
| VMap (m : list (string * value))
| VOther (goType : string) (shown : string).

(** Errors built with [fmt.Errorf] in the package, one constructor per
    message, and errors handed back by a collaborator. *)
Inductive error : Type :=
| UnknownVariable (varName : string)
    (* "unknown variable %v in script" *)
| UnexpectedType (goType : string)
    (* "unexpected script data of type %T" *)
| UnknownBuiltin (val : string)
    (* "unknown built-in variable %v" *)
| MissingArgument (ival : Z) (key : string)
    (* "missing command line argument %v: %v" *)
| NoActionProperty
    (* "script contains an action with no 'action' property" *)
| InvalidActionProperty (nm : value)
    (* "script contains an action with an invalid 'action' property: %v" *)
| CustomNotMap
    (* "'custom' should contain a map from custom field name to value" *)
| External (msg : string).

(** Abnormal ends of the run: a run-time panic of the package itself
    (an index out of range, a failed type assertion), or a collaborator
    that panicked or left the process ([os.Exit]). *)
Inductive panic : Type :=
| IndexOutOfRange
| TypeAssertion
| CollaboratorHalt.

Inductive result (A : Type) : Type :=
| Ok (a : A)
| Err (e : error)
| Panic (p : panic).
Arguments Ok {A} a.
Arguments Err {A} e.
Arguments Panic {A} p.

Definition bind {A B} (r : result A) (k : A -> result B) : result B :=
  match r with
  | Ok a => k a
  | Err e => Err e
  | Panic p => Panic p
  end.

Notation "'do' x <- r ; k" := (bind r (fun x => k))
  (at level 10, x name, r at level 100, k at level 200,
   format "'[v' 'do'  x  <-  r ; '/' k ']'").

(** ** Byte strings *)

(** [obj[i:j]] for [i <= j <= len(obj)]. *)
Definition slice (obj : string) (i j : nat) : string :=
  substring i (j - i) obj.

(** [\w] of Go's regexp syntax: the ASCII class [0-9A-Za-z_]. *)
Definition is_word (c : ascii) : bool :=
  let n := N_of_ascii c in
  ((48 <=? n) && (n <=? 57) || (65 <=? n) && (n <=? 90) ||
   (97 <=? n) && (n <=? 122) || (n =? 95))%N.

Definition is_dollar (c : ascii) : bool := (N_of_ascii c =? 36)%N.

(** Length of the longest prefix of word characters. *)
Fixpoint word_run (s : string) : nat :=
  match s with
  | String c s' => if is_word c then S (word_run s') else O
  | EmptyString => O
  end.

(** [varRe.FindAllStringIndex(obj, -1)] for [varRe = `\$\w+`]: the
    successive leftmost matches, each as greedy as possible, none
    overlapping the one before.  [pos] is the offset of [s] in the
    subject and [skip] the number of bytes still covered by the last
    match. *)
Fixpoint find_from (s : string) (pos skip : nat) : list (nat * nat) :=
  match s with
  | EmptyString => []
  | String c s' =>
      match skip with
      | S k => find_from s' (S pos) k
      | O =>
          if is_dollar c then
            match word_run s' with
            | O => find_from s' (S pos) O
            | S n => (pos, (pos + 1 + S n)%nat) :: find_from s' (S pos) (S n)
            end
          else find_from s' (S pos) O
      end
  end.

Definition FindAllStringIndex (obj : string) : list (nat * nat) :=
  find_from obj O O.

(** ** The interpolator *)

(** The [for _, match := range ...] loop of the [string] case, with its
    two loop variables [newString] and [lastIdx]. *)
Fixpoint interpolate_matches (obj : string) (define : gmap string string)
    (matches : list (nat * nat)) (newString : string) (lastIdx : nat)
    : result string :=
  match matches with
  | [] => Ok (newString +:+ slice obj lastIdx (String.length obj))
  | (m0, m1) :: rest =>
      let newString := newString +:+ slice obj lastIdx m0 in
      let varName := slice obj (m0 + 1) m1 in
      match define !! varName with
      | None => Err (UnknownVariable varName)
      | Some val => interpolate_matches obj define rest (newString +:+ val) m1
      end
  end.

Definition interpolate_string (obj : string) (define : gmap string string)
    : result string :=
  interpolate_matches obj define (FindAllStringIndex obj) "" O.

Fixpoint interpolateVars (o : value) (define : gmap string string)
    : result value :=
  match o with
  | VStr obj =>
      do newString <- interpolate_string obj define ; Ok (VStr newString)
  | VSeq obj =>
      do newSlice <-
        (fix each (l : list value) : result (list value) :=
           match l with
           | [] => Ok []
           | val :: l' =>
               do newVal <- interpolateVars val define ;
               do rest <- each l' ;
               Ok (newVal :: rest)
           end) obj ;
      Ok (VSeq newSlice)
  | VMap obj =>
      do newMap <-
        (fix each (l : list (string * value)) : result (list (string * value)) :=
           match l with
           | [] => Ok []
           | (key, val) :: l' =>
               do newVal <- interpolateVars val define ;
               do rest <- each l' ;
               Ok ((key, newVal) :: rest)
           end) obj ;
      Ok (VMap newMap)
  | VOther goType _ => Err (UnexpectedType goType)
  end.

(** The two inner loops of [interpolateVars], named. *)
Fixpoint interpolate_seq (define : gmap string string) (l : list value)
    : result (list value) :=
  match l with
  | [] => Ok []
  | val :: l' =>
      do newVal <- interpolateVars val define ;
      do rest <- interpolate_seq define l' ;
      Ok (newVal :: rest)
  end.

Fixpoint interpolate_map (define : gmap string string)
    (l : list (string * value)) : result (list (string * value)) :=
  match l with
  | [] => Ok []
  | (key, val) :: l' =>
      do newVal <- interpolateVars val define ;
      do rest <- interpolate_map define l' ;
      Ok ((key, newVal) :: rest)
  end.

(** ** Library functions the package calls *)

(** [fmt.Sprint] of one operand ([%v]): a string prints as itself, a
    slice as [[a b]], a map as [map[k:v k:v]] with its keys sorted. *)
Fixpoint join (sep : string) (l : list string) : string :=
  match l with
  | [] => ""
  | [x] => x
  | x :: l' => x +:+ sep +:+ join sep l'
  end.

Fixpoint insert_by {A} (lt : A -> A -> bool) (x : A) (l : list A) : list A :=
  match l with
  | [] => [x]
  | y :: l' => if lt x y then x :: y :: l' else y :: insert_by lt x l'
  end.

(** [slices.SortFunc(keys, cmp)]: sorts in ascending order as [cmp]
    decides, with no promise on the order of equal elements.  The model
    is the insertion sort the Go library runs on short slices: each
    element moves left while [cmp] puts it strictly below its left
    neighbour.  The accumulator holds the sorted prefix from right to
    left. *)
Definition stays_right {A} (cmp : A -> A -> comparison) (x y : A) : bool :=
  match cmp x y with Lt => false | _ => true end.

Definition SortFunc {A} (cmp : A -> A -> comparison) (l : list A) : list A :=
  rev (fold_left (fun prefix x => insert_by (stays_right cmp) x prefix) l []).

Definition key_lt (a b : string * string) : bool :=
  match String.compare a.1 b.1 with Lt => true | _ => false end.

Fixpoint fmt_Sprint (v : value) : string :=
  match v with
  | VStr s => s
  | VSeq l => "[" +:+ join " " (map fmt_Sprint l) +:+ "]"
  | VMap m =>
      let shown :=
        (fix each (l : list (string * value)) : list (string * string) :=
           match l with
           | [] => []
           | (k, x) :: l' => (k, fmt_Sprint x) :: each l'
           end) m in
      "map[" +:+
      join " " (map (fun kv => kv.1 +:+ ":" +:+ kv.2)
                  (fold_right (insert_by key_lt) [] shown)) +:+ "]"
  | VOther _ shown => shown
  end.

(** [strconv.Atoi] on a 64-bit platform: an optional sign, then one or
    more decimal digits, the value within the range of [int]. *)
Definition digit_of (c : ascii) : option Z :=
  let n := N_of_ascii c in
  if ((48 <=? n) && (n <=? 57))%N then Some (Z.of_N n - 48) else None.

Fixpoint parse_digits (s : string) (acc : Z) : option Z :=
  match s with
  | EmptyString => Some acc
  | String c s' =>
      match digit_of c with
      | Some d => parse_digits s' (10 * acc + d)
      | None => None
      end
  end.

Definition is_minus (c : ascii) : bool := (N_of_ascii c =? 45)%N.
Definition is_plus (c : ascii) : bool := (N_of_ascii c =? 43)%N.

Definition Atoi (s : string) : option Z :=
  match s with
  | EmptyString => None
  | String c s' =>
      let digits := if is_minus c || is_plus c then s' else s in
      match digits with
      | EmptyString => None
      | _ =>
          match parse_digits digits 0 with
          | Some n =>
              let z := if is_minus c then - n else n in
              if (- 2 ^ 63 <=? z) && (z <=? 2 ^ 63 - 1) then Some z else None
          | None => None
          end
      end
  end.

(** [l[i]] for a signed index: [None] stands for the run-time panic. *)
Definition index {A} (l : list A) (i : Z) : option A :=
  if i <? 0 then None else l !! Z.to_nat i.

(** [m[key]] on the entries of a [map[string]any]. *)
Fixpoint map_get (key : string) (m : list (string * value)) : option value :=
  match m with
  | [] => None
  | (k, v) :: m' => if String.eqb k key then Some v else map_get key m'
  end.

(** ** The resolver *)

Definition is_tilde (c : ascii) : bool := (N_of_ascii c =? 126)%N.

Definition OptionMe : string := "Me".

Section Engine.

(** The state of everything outside the package: the console, the
    issue tracker, the command tree being executed. *)
Context {W : Type}.

(** [UserLookup]: the choice made at the prompt, and the [Name] of the
    user found. *)
Variable SelectUser : string -> W -> result string * W.
Variable FindMe : W -> result string * W.
Variable FindUser : string -> W -> result string * W.

(** The [choose_user] branch. *)
Definition choose_user (key : string) (w : W) : result string * W :=
  match SelectUser ("Select user for " +:+ key +:+ ":") w with
  | (Ok choice, w) =>
      if String.eqb choice OptionMe then FindMe w else FindUser choice w
  | (Err e, w) => (Err e, w)
  | (Panic p, w) => (Panic p, w)
  end.

Definition set_name (key : string) (define : gmap string string)
    (r : result string * W) : result (gmap string string) * W :=
  match r with
  | (Ok name, w) => (Ok (<[key := name]> define), w)
  | (Err e, w) => (Err e, w)
  | (Panic p, w) => (Panic p, w)
  end.

(** The body of [for _, key := range(keys)]. *)
Definition SetupArgs_visit (args : list string) (key : string)
    (define : gmap string string) (w : W)
    : result (gmap string string) * W :=
  let val := default "" (define !! key) in
  match val with
  | EmptyString => (Panic IndexOutOfRange, w)
  | String c varname =>
      if is_tilde c then
        match varname with
        | String c' rest =>
            if is_tilde c' then (Ok (<[key := rest]> define), w)
            else if String.eqb varname "choose_user" then
              set_name key define (choose_user key w)
            else if String.eqb varname "me" then
              set_name key define (FindMe w)
            else
              match Atoi varname with
              | None => (Err (UnknownBuiltin val), w)
              | Some ival =>
                  if Z.of_nat (length args) <? ival then
                    (Err (MissingArgument ival key), w)
                  else
                    match index args (ival - 1) with
                    | Some arg => (Ok (<[key := arg]> define), w)
                    | None => (Panic IndexOutOfRange, w)
                    end
              end
        | EmptyString =>
            (* "~" alone: not escaped, no built-in name, Atoi fails *)
            (Err (UnknownBuiltin val), w)
        end
      else (Ok define, w)
  end.

Fixpoint SetupArgs_loop (args keys : list string)
    (define : gmap string string) (w : W)
    : result (gmap string string) * W :=
  match keys with
  | [] => (Ok define, w)
  | key :: keys' =>
      match SetupArgs_visit args key define w with
      | (Ok define', w') => SetupArgs_loop args keys' define' w'
      | stop => stop
      end
  end.

(** The order in which the variables are visited; [iter] is the order
    in which [range(s.Define)] yields the keys. *)
Definition SetupArgs_keys (define : gmap string string)
    (iter : list string) : list string :=
  SortFunc
    (fun a b => String.compare (default "" (define !! a))
                               (default "" (define !! b)))
    iter.

Definition SetupArgs (define : gmap string string) (args iter : list string)
    (w : W) : result (gmap string string) * W :=
  SetupArgs_loop args (SetupArgs_keys define iter) define w.

End Engine.

(** ** The translator and the driver *)

Section Driver.

Context {W : Type}.

(** [json.Marshal] of a [map[string]any]. *)
Variable json_Marshal : list (string * value) -> result string.

(** [root.Find([]string{"issue", name})]: an error, or the subcommand,
    of which the driver asks whether it has a [no-input] flag. *)
Variable Find : string -> result bool.

(** [root.SetArgs(args); root.ExecuteC()]: an error, or the content
    of [consumer.issueKey] when the command returns (the key handed
    to [Consume], the empty string when there was none). *)
Variable ExecuteC : list string -> W -> result string * W.

(** [case "custom"]: the loop over [customs]. *)
Fixpoint custom_loop (customs : list (string * value)) (args : list string)
    : result (list string) :=
  match customs with
  | [] => Ok args
  | (fname, fvalue) :: rest =>
      match fvalue with
      | VMap mapval =>
          do strval <- json_Marshal mapval ;
          custom_loop rest
            ((args ++ ["--custom"]) ++ ["json:" +:+ fname +:+ "=" +:+ strval])
      | _ =>
          custom_loop rest
            ((args ++ ["--custom"]) ++ [fname +:+ "=" +:+ fmt_Sprint fvalue])
      end
  end.

(** The body of [for key, value := range action]. *)
Definition translate_field (key : string) (value : value)
    (args : list string) : result (list string) :=
  if String.eqb key "action" then Ok args
  else if String.eqb key "args" then
    match value with
    | VSeq argslice =>
        Ok (fold_left (fun args arg => args ++ [fmt_Sprint arg]) argslice args)
    | _ => Ok (args ++ [fmt_Sprint value])
    end
  else if String.eqb key "custom" then
    match value with
    | VMap customs => custom_loop customs args
    | _ => Err CustomNotMap
    end
  else
    match value with
    | VSeq arrval =>
        Ok (fold_left
              (fun args item => (args ++ ["--" +:+ key]) ++ [fmt_Sprint item])
              arrval args)
    | _ => Ok ((args ++ ["--" +:+ key]) ++ [fmt_Sprint value])
    end.

Fixpoint translate (action : list (string * value)) (args : list string)
    : result (list string) :=
  match action with
  | [] => Ok args
  | (key, value) :: rest =>
      do args <- translate_field key value args ;
      translate rest args
  end.

(** [action["action"]] and its type assertion to [string]. *)
Definition action_name (action : list (string * value)) : result string :=
  match map_get "action" action with
  | None => Err NoActionProperty
  | Some (VStr name) => Ok name
  | Some nm => Err (InvalidActionProperty nm)
  end.

Definition captures (name : string) : bool :=
  String.eqb name "create" || String.eqb name "clone".

(** One turn of [for _, action := range script.Actions]: the [Define]
    mapping the turn leaves behind, or the reason the run stops.  The
    line printed before the dispatch is left out. *)
Definition run_action (noInput : bool) (action : list (string * value))
    (define : gmap string string) (w : W)
    : result (gmap string string) * W :=
  match action_name action with
  | Ok name =>
      match interpolateVars (VMap action) define with
      | Ok (VMap action) =>
          match Find name with
          | Ok hasNoInput =>
              let args := ["issue"; name] in
              let args :=
                if noInput && hasNoInput then args ++ ["--no-input"]
                else args in
              match translate action args with
              | Ok args =>
                  match ExecuteC args w with
                  | (Ok issueKey, w') =>
                      if captures name
                      then (Ok (<["issue_key" := issueKey]> define), w')
                      else (Ok define, w')
                  | (Err e, w') => (Err e, w')
                  | (Panic p, w') => (Panic p, w')
                  end
              | Err e => (Err e, w)
              | Panic p => (Panic p, w)
              end
          | Err e => (Err e, w)
          | Panic p => (Panic p, w)
          end
      | Ok _ => (Panic TypeAssertion, w)
      | Err e => (Err e, w)
      | Panic p => (Panic p, w)
      end
  | Err e => (Err e, w)
  | Panic p => (Panic p, w)
  end.

(** The loop over the actions.  The [Define] mapping is returned with
    every outcome: it is the mapping as the run leaves it. *)
Fixpoint run_actions (noInput : bool) (actions : list (list (string * value)))
    (define : gmap string string) (w : W)
    : result unit * gmap string string * W :=
  match actions with
  | [] => (Ok tt, define, w)
  | action :: rest =>
      match run_action noInput action define w with
      | (Ok define', w') => run_actions noInput rest define' w'
      | (Err e, w') => (Err e, define, w')
      | (Panic p, w') => (Panic p, define, w')
      end
  end.

Variable SelectUser : string -> W -> result string * W.
Variable FindMe : W -> result string * W.
Variable FindUser : string -> W -> result string * W.

Record Script : Type := {
  Define : gmap string string;
  Actions : list (list (string * value))
}.

(** [runScript] from the decoded script on: opening and decoding the
    file and reading the flags of the command come before. *)
Definition runScript (script : Script) (args iter : list string)
    (noInput : bool) (w : W) : result unit * gmap string string * W :=
  match SetupArgs SelectUser FindMe FindUser (Define script) args iter w with
  | (Ok define, w') => run_actions noInput (Actions script) define w'
  | (Err e, w') => (Err e, Define script, w')
  | (Panic p, w') => (Panic p, Define script, w')
  end.

End Driver.

(** ** Notions the statements use *)

(** [s] holds a reference to the variable [name]: the marker, then
    [name] as the longest run of word characters after it. *)
Definition references (s name : string) : Prop :=
  exists pre post,
    s = pre +:+ String "$" (name +:+ post) /\
    name <> "" /\
    word_run name = String.length name /\
    word_run post = O.

(** [inner] occurs in [outer]: as the value itself, as an element of a
    sequence, or as a value of a mapping, at any depth. *)
Inductive occurs_in (inner : value) : value -> Prop :=
| occurs_here : occurs_in inner inner
| occurs_seq l v : In v l -> occurs_in inner v -> occurs_in inner (VSeq l)
| occurs_map m k v : In (k, v) m -> occurs_in inner v -> occurs_in inner (VMap m).

(** The raw directive of a variable, as the comparison of [SetupArgs]
    reads it. *)
Definition raw (define : gmap string string) (key : string) : string :=
  default "" (define !! key).

Definition value_le (define : gmap string string) (a b : string) : Prop :=
  String.compare (raw define a) (raw define b) <> Gt.


(** The two arguments one entry of [custom] stands for. *)
Definition custom_flag (json_Marshal : list (string * value) -> result string)
    (entry : string * value) (flag : list string) : Prop :=
  match entry.2 with
  | VMap mapval =>
      exists strval,
        json_Marshal mapval = Ok strval /\
        flag = ["--custom"; "json:" +:+ entry.1 +:+ "=" +:+ strval]
  | fvalue => flag = ["--custom"; entry.1 +:+ "=" +:+ fmt_Sprint fvalue]
  end.

(** ** A world to run the model in *)

(** [json.Marshal] on the trees the interpolator returns (strings,
    sequences, mappings): compact, the keys of a mapping sorted, strings
    quoted with the escapes of [encoding/json] for the ASCII range (the
    quote and the backslash, the short escapes for line feed, carriage
    return and tab, the code [u00XX] for the other control bytes and for
    the three bytes HTML escaping touches).  A leaf of another type is
    outside this model, which answers with an error there. *)
Definition quote_char : ascii := ascii_of_N 34.
Definition backslash : ascii := ascii_of_N 92.

Definition hex_digit (n : N) : ascii :=
  ascii_of_N (if (n <? 10)%N then 48 + n else 87 + n).

Definition json_escape (c : ascii) : string :=
  let n := N_of_ascii c in
  if ((n =? 34) || (n =? 92))%N then String backslash (String c "")
  else if (n =? 10)%N then String backslash "n"
  else if (n =? 13)%N then String backslash "r"
  else if (n =? 9)%N then String backslash "t"
  else if ((n <? 32) || (n =? 60) || (n =? 62) || (n =? 38))%N then
    String backslash
      ("u00" +:+ String (hex_digit (n / 16)) (String (hex_digit (n mod 16)) ""))
  else String c "".

Fixpoint json_escape_all (s : string) : string :=
  match s with
  | EmptyString => ""
  | String c s' => json_escape c +:+ json_escape_all s'
  end.

Definition json_string (s : string) : string :=
  String quote_char (json_escape_all s +:+ String quote_char "").

Fixpoint json_value (v : value) : result string :=
  match v with
  | VStr s => Ok (json_string s)
  | VSeq l =>
      do items <-
        (fix each (l : list value) : result (list string) :=
           match l with
           | [] => Ok []
           | x :: l' =>
               do item <- json_value x ;
               do rest <- each l' ;
               Ok (item :: rest)
           end) l ;
      Ok ("[" +:+ join "," items +:+ "]")
  | VMap m =>
      do fields <-
        (fix each (l : list (string * value)) : result (list (string * string)) :=
           match l with
           | [] => Ok []
           | (k, x) :: l' =>
               do field <- json_value x ;
               do rest <- each l' ;
               Ok ((k, field) :: rest)
           end) m ;
      Ok ("{" +:+
          join "," (map (fun kv => json_string kv.1 +:+ ":" +:+ kv.2)
                      (fold_right (insert_by key_lt) [] fields)) +:+ "}")
  | VOther _ _ => Err (External "json: a value outside the model")
  end.

Definition json_Marshal_strings (m : list (string * value)) : result string :=
  json_value (VMap m).

(** Collaborators for the examples: the world is the list of the
    argument vectors dispatched so far; every command succeeds and
    reports the key [PROJ-7]; the user at the prompt picks [Me], who is
    [jdoe]; no other user is known. *)
Definition stub_Find (name : string) : result bool := Ok false.

Definition stub_ExecuteC (args : list string) (w : list (list string))
    : result string * list (list string) :=
  (Ok "PROJ-7", w ++ [args]).

Definition stub_SelectUser (prompt : string) (w : list (list string))
    : result string * list (list string) :=
  (Ok OptionMe, w).

Definition stub_FindMe (w : list (list string))
    : result string * list (list string) :=
  (Ok "jdoe", w).

Definition stub_FindUser (query : string) (w : list (list string))
    : result string * list (list string) :=
  (Err (External "user not found"), w).

Definition stub_runScript :=
  runScript json_Marshal_strings stub_Find stub_ExecuteC
    stub_SelectUser stub_FindMe stub_FindUser.

Definition stub_SetupArgs :=
  @SetupArgs (list (list string)) stub_SelectUser stub_FindMe stub_FindUser.

(** ** Notions for the rest of the package *)

(** What the loop of the string case computes, read off the string from
    left to right: a marker followed by word characters is replaced by
    the value of the name they spell, every other byte is copied.
    [skip] counts the bytes of the name still to pass. *)
Fixpoint expand (define : gmap string string) (s : string) (skip : nat)
    : result string :=
  match s with
  | EmptyString => Ok ""
  | String c s' =>
      match skip with
      | S k => expand define s' k
      | O =>
          if is_dollar c then
            match word_run s' with
            | O => do r <- expand define s' O ; Ok (String c r)
            | S n =>
                match define !! substring 0 (S n) s' with
                | None => Err (UnknownVariable (substring 0 (S n) s'))
                | Some val => do r <- expand define s' (S n) ; Ok (val +:+ r)
                end
            end
          else do r <- expand define s' O ; Ok (String c r)
      end
  end.

(** No marker of [s] is followed by a word character: [s] holds no
    reference. *)
Fixpoint no_reference (s : string) : bool :=
  match s with
  | EmptyString => true
  | String c s' =>
      (negb (is_dollar c) || Nat.eqb (word_run s') O) && no_reference s'
  end.

(** Trees of strings, sequences and mappings: no leaf of another type. *)
#[warnings="-register-all"]
Inductive strings_only : value -> Prop :=
| strings_only_str s : strings_only (VStr s)
| strings_only_seq l : Forall strings_only l -> strings_only (VSeq l)
| strings_only_map m :
    Forall (fun kv => strings_only kv.2) m -> strings_only (VMap m).

(** Such trees whose strings hold no reference. *)
#[warnings="-register-all"]
Inductive reference_free : value -> Prop :=
| reference_free_str s : no_reference s = true -> reference_free (VStr s)
| reference_free_seq l : Forall reference_free l -> reference_free (VSeq l)
| reference_free_map m :
    Forall (fun kv => reference_free kv.2) m -> reference_free (VMap m).

(** [Script.Interpolate]: the actions of the script interpolated in
    place, one after the other.  [todo] is what [range s.Actions] has
    still to yield, [idx] the index it stands at, [actions] the slice as
    the assignments so far have left it. *)
Fixpoint Interpolate_loop (define : gmap string string)
    (todo : list (list (string * value))) (idx : nat)
    (actions : list (list (string * value)))
    : result unit * list (list (string * value)) :=
  match todo with
  | [] => (Ok tt, actions)
  | action :: todo' =>
      match interpolateVars (VMap action) define with
      | Ok (VMap newMap) =>
          Interpolate_loop define todo' (S idx) (<[idx := newMap]> actions)
      | Ok _ => (Panic TypeAssertion, actions)
      | Err e => (Err e, actions)
      | Panic p => (Panic p, actions)
      end
  end.

Definition Interpolate (s : Script) : result unit * Script :=
  match Interpolate_loop (Define s) (Actions s) O (Actions s) with
  | (r, actions) => (r, {| Define := Define s; Actions := actions |})
  end.

(** [%d] of [fmt], and [strconv.Itoa]: the decimal digits of an
    integer, most significant first, after a minus sign when it is
    negative.  The fuel is the number of bits, which bounds the number
    of digits. *)
Fixpoint digits_of (fuel : nat) (n : N) (acc : string) : string :=
  match fuel with
  | O => acc
  | S fuel' =>
      let acc' := String (ascii_of_N (48 + n mod 10)) acc in
      if (n / 10 =? 0)%N then acc' else digits_of fuel' (n / 10) acc'
  end.

Definition fmt_d (z : Z) : string :=
  if z <? 0
  then String "-" (digits_of (S (N.size_nat (Z.to_N (- z)))) (Z.to_N (- z)) "")
  else digits_of (S (N.size_nat (Z.to_N z))) (Z.to_N z) "".

(** ** Package [cmdcommon]: the user lookup *)

Definition optionSearch : string := "[Search...]".
Definition optionCancel : string := "Cancel".
Definition lineBreak : string := "----------".

(** [jira.User], the fields the package reads. *)
Record User : Type := {
  AccountID : string;
  Email : string;
  Name : string;
  DisplayName : string;
  Active : bool
}.

(** [UserLookup]; a [nil] slice of users is [None]. *)
Record UserLookup : Type := {
  Project : string;
  AdditionalOptions : list string;
  users : option (list User);
  searchKeyword : string
}.

Definition set_users (ul : UserLookup) (u : option (list User)) : UserLookup :=
  {| Project := Project ul; AdditionalOptions := AdditionalOptions ul;
     users := u; searchKeyword := searchKeyword ul |}.

Definition set_searchKeyword (ul : UserLookup) (k : string) : UserLookup :=
  {| Project := Project ul; AdditionalOptions := AdditionalOptions ul;
     users := users ul; searchKeyword := k |}.

(** The errors of the package: an error of a collaborator handed on as
    it is, or wrapped by "failed to fetch users: %w", and "user not
    found %q". *)
Inductive lookup_error : Type :=
| Plain (e : error)
| FailedToFetchUsers (cause : error)
| UserNotFound (query : string).

(** What a call of the package ends with: a value, an error, a panic of
    a collaborator, or the end of the process ([os.Exit]). *)
Inductive lookup_result (A : Type) : Type :=
| Found (a : A)
| Failed (e : lookup_error)
| Crashed (p : panic)
| Exited (code : Z).
Arguments Found {A} a.
Arguments Failed {A} e.
Arguments Crashed {A} p.
Arguments Exited {A} code.

Definition getFullName (user : User) : string :=
  let name := DisplayName user in
  if negb (String.eqb (Name user) "")
  then name +:+ (" (" +:+ Name user +:+ ")")
  else name.

Definition getOptions (ul : UserLookup) (last : bool) : list string :=
  let validUsers :=
    fold_left
      (fun validUsers t =>
         if Active t then validUsers ++ [getFullName t] else validUsers)
      (default [] (users ul)) [] in
  let options := [optionSearch] in
  if last then
    (((options ++ validUsers) ++ [lineBreak]) ++ AdditionalOptions ul)
    ++ [optionCancel]
  else
    (((options ++ AdditionalOptions ul) ++ [optionCancel]) ++ [lineBreak])
    ++ validUsers.

Section UserLookupModel.

Context {W : Type}.

(** [strings.ToLower]. *)
Variable ToLower : string -> string.

(** [api.ProxyUserSearch] with the keyword and the project, at most 100
    results: the users, possibly a [nil] slice. *)
Variable ProxyUserSearch :
  string -> string -> W -> result (option (list User)) * W.

(** [survey.Ask]: of a selection among options under a message, and of
    a line of input; each with the validation the question carries,
    which is the library's to apply. *)
Variable AskSelect : string -> list string -> W -> result string * W.
Variable AskInput : string -> W -> result string * W.

Definition matches_user (query : string) (u : User) : bool :=
  String.eqb query (ToLower (DisplayName u)) ||
  String.eqb query (ToLower (Name u)) ||
  String.eqb query (ToLower (Email u)) ||
  String.eqb query (ToLower (getFullName u)).

(** The loop of [FindUser]; [query] is already in lower case. *)
Fixpoint find_user (l : list User) (query : string) : option User :=
  match l with
  | [] => None
  | u :: l' => if matches_user query u then Some u else find_user l' query
  end.

Definition updateUsersList (ul : UserLookup) (w : W)
    : lookup_result unit * UserLookup * W :=
  match ProxyUserSearch (searchKeyword ul) (Project ul) w with
  | (Ok u, w') => (Found tt, set_users ul u, w')
  | (Err e, w') => (Failed (FailedToFetchUsers e), ul, w')
  | (Panic p, w') => (Crashed p, ul, w')
  end.

(** [init]: [updateUsersList] under a progress message. *)
Definition init (ul : UserLookup) (w : W)
    : lookup_result unit * UserLookup * W :=
  updateUsersList ul w.

Definition FindUser (ul : UserLookup) (query : string) (w : W)
    : lookup_result User * UserLookup * W :=
  let loaded :=
    match users ul with
    | None => init ul w
    | Some _ => (Found tt, ul, w)
    end in
  match loaded with
  | (Found _, ul, w) =>
      let query := ToLower query in
      match find_user (default [] (users ul)) query with
      | Some user => (Found user, ul, w)
      | None => (Failed (UserNotFound query), ul, w)
      end
  | (Failed e, ul, w) => (Failed e, ul, w)
  | (Crashed p, ul, w) => (Crashed p, ul, w)
  | (Exited c, ul, w) => (Exited c, ul, w)
  end.

(** [getSearchKeyword]: the answer is stored in [ul.searchKeyword]. *)
Definition getSearchKeyword (ul : UserLookup) (w : W)
    : lookup_result unit * UserLookup * W :=
  match AskInput "Search user:" w with
  | (Ok keyword, w') => (Found tt, set_searchKeyword ul keyword, w')
  | (Err e, w') => (Failed (Plain e), ul, w')
  | (Panic p, w') => (Crashed p, ul, w')
  end.

(** The [for] loop of [SelectUser]; it goes round as long as the user
    picks the search, so the model counts the rounds: [None] when they
    run out. *)
Fixpoint SelectUser_loop (rounds : nat) (prompt : string) (last : bool)
    (ul : UserLookup) (w : W)
    : option (lookup_result string * UserLookup * W) :=
  match rounds with
  | O => None
  | S rounds' =>
      match AskSelect prompt (getOptions ul last) w with
      | (Err e, w1) => Some (Failed (Plain e), ul, w1)
      | (Panic p, w1) => Some (Crashed p, ul, w1)
      | (Ok ans, w1) =>
          if String.eqb ans optionCancel then Some (Exited 0, ul, w1)
          else if negb (String.eqb ans optionSearch)
          then Some (Found ans, ul, w1)
          else
            match getSearchKeyword ul w1 with
            | (Found _, ul2, w2) =>
                match updateUsersList ul2 w2 with
                | (Found _, ul3, w3) =>
                    SelectUser_loop rounds' prompt true ul3 w3
                | (Failed e, ul3, w3) => Some (Failed e, ul3, w3)
                | (Crashed p, ul3, w3) => Some (Crashed p, ul3, w3)
                | (Exited c, ul3, w3) => Some (Exited c, ul3, w3)
                end
            | (Failed e, ul2, w2) => Some (Failed e, ul2, w2)
            | (Crashed p, ul2, w2) => Some (Crashed p, ul2, w2)
            | (Exited c, ul2, w2) => Some (Exited c, ul2, w2)
            end
      end
  end.

Definition SelectUser (rounds : nat) (ul : UserLookup)
    (prompt : string) (w : W)
    : option (lookup_result string * UserLookup * W) :=
  let loaded :=
    match users ul with
    | None => init ul w
    | Some _ => (Found tt, ul, w)
    end in
  match loaded with
  | (Found _, ul, w) => SelectUser_loop rounds prompt false ul w
  | (Failed e, ul, w) => Some (Failed e, ul, w)
  | (Crashed p, ul, w) => Some (Crashed p, ul, w)
  | (Exited c, ul, w) => Some (Exited c, ul, w)
  end.

End UserLookupModel.

(** ** Package [tclog]: the arguments of the command *)

Module tclog.

Record tclogParams : Type := {
  key : string;
  buildnum : Z;
  filename : string;
  debug : bool
}.

(** [args[i]], with the panic of an index out of range. *)
Definition at_index (args : list string) (i : nat) : result string :=
  match args !! i with
  | Some arg => Ok arg
  | None => Panic IndexOutOfRange
  end.

(** [parseArgsAndFlags].  [GetJiraIssueKey] is the function of that name
    of [cmdutil]; [GetBool_debug] is what [flags.GetBool("debug")]
    returns, an error of which ends the process ([cmdutil.ExitIfError]). *)
Definition parseArgsAndFlags (GetJiraIssueKey : string -> string -> string)
    (GetBool_debug : result bool) (args : list string) (project : string)
    : result tclogParams :=
  let nargs := length args in
  do key <-
    (if (1 <=? nargs)%nat
     then do arg <- at_index args 0 ; Ok (GetJiraIssueKey project arg)
     else Ok "") ;
  do buildnum <-
    (if (2 <=? nargs)%nat
     then do arg <- at_index args 1 ;
          match Atoi arg with
          | Some ival => Ok ival
          | None => Err (External "build number must be a number")
          end
     else Ok 0) ;
  do filename <- (if (3 <=? nargs)%nat then at_index args 2 else Ok "") ;
  match GetBool_debug with
  | Ok debug =>
      Ok {| key := key; buildnum := buildnum; filename := filename;
            debug := debug |}
  | Err _ => Panic CollaboratorHalt
  | Panic p => Panic p
  end.

End tclog.

(** ** Package [teamcity]: the search of an artifact *)

Module teamcity.

(** An element of [Artifacts.Files]. *)
Record File : Type := { Name : string; Href : string }.

Inductive tc_error : Type :=
| Transport (e : error)
    (* the error of the request, of its sending or of the reading of
       the body, returned as it is *)
| NoArtifacts (buildId : Z)
    (* "build %v has no artifacts" *)
| ReadingArtifacts (body : string)
    (* "error reading artifacts: %v" *)
| Decode (e : error)
    (* the error of json.Unmarshal *)
| NoSuchArtifact (filename : string).
    (* "no such artifact %v" *)

Inductive tc_panic : Type :=
| QueueIndex         (* queue[0] on an empty queue *)
| SliceBounds        (* file.Href[len(metadataPrefix):] on a short href *)
| Collaborator (p : panic).

Inductive tc_result (A : Type) : Type :=
| TcOk (a : A)
| TcErr (e : tc_error)
| TcPanic (p : tc_panic).
Arguments TcOk {A} a.
Arguments TcErr {A} e.
Arguments TcPanic {A} p.

(** [href[n:]]. *)
Definition strip (n : nat) (href : string) : option string :=
  if (String.length href <? n)%nat then None
  else Some (substring n (String.length href - n) href).

(** The loop over [arts.Files]: the path of the artifact, or the queue
    with the other paths appended. *)
Fixpoint scan_files (prefixLen : nat) (filename : string)
    (files : list File) (queue : list string)
    : tc_result (string + list string) :=
  match files with
  | [] => TcOk (inr queue)
  | file :: files' =>
      match strip prefixLen (Href file) with
      | None => TcPanic SliceBounds
      | Some path =>
          if String.eqb (Name file) filename then TcOk (inl path)
          else scan_files prefixLen filename files' (queue ++ [path])
      end
  end.

Section FindArtifact.

Context {W : Type}.

(** A GET of the URL with the token: the status and the body, or the
    error of the request. *)
Variable httpGet : string -> W -> result (Z * string) * W.

(** [json.Unmarshal] into [Artifacts], then its [Files]. *)
Variable Unmarshal : string -> result (list File).

Variable URL : string.

Definition artifactsURL (buildId : Z) (parentPath : string) : string :=
  let url := URL +:+ "/app/rest/builds/id:" +:+ fmt_d buildId +:+ "/artifacts" in
  if negb (String.eqb parentPath "") then url +:+ "/children/" +:+ parentPath
  else url.

Definition metadataPrefix (buildId : Z) : string :=
  "/app/rest/builds/id:" +:+ fmt_d buildId +:+ "/artifacts/metadata/".

(** The [for] loop of [FindArtifact]; it goes on as long as the listings
    bring new paths, so the model counts the rounds: [None] when they
    run out. *)
Fixpoint FindArtifact_loop (rounds : nat) (buildId : Z) (filename : string)
    (queue : list string) (w : W) : option (tc_result string * W) :=
  match rounds with
  | O => None
  | S rounds' =>
      match queue with
      | [] => Some (TcPanic QueueIndex, w)
      | parentPath :: queue =>
          match httpGet (artifactsURL buildId parentPath) w with
          | (Err e, w1) => Some (TcErr (Transport e), w1)
          | (Panic p, w1) => Some (TcPanic (Collaborator p), w1)
          | (Ok (status, buf), w1) =>
              let checked :=
                if status =? 404 then
                  if String.eqb parentPath "" then Some (NoArtifacts buildId)
                  else None
                else if negb (status =? 200) then Some (ReadingArtifacts buf)
                else None in
              match checked with
              | Some e => Some (TcErr e, w1)
              | None =>
                  match Unmarshal buf with
                  | Err e => Some (TcErr (Decode e), w1)
                  | Panic p => Some (TcPanic (Collaborator p), w1)
                  | Ok files =>
                      match scan_files
                              (String.length (metadataPrefix buildId))
                              filename files queue with
                      | TcOk (inl path) => Some (TcOk path, w1)
                      | TcOk (inr queue) =>
                          if (length queue =? 0)%nat
                          then Some (TcErr (NoSuchArtifact filename), w1)
                          else FindArtifact_loop rounds' buildId filename
                                 queue w1
                      | TcErr e => Some (TcErr e, w1)
                      | TcPanic p => Some (TcPanic p, w1)
                      end
                  end
              end
          end
      end
  end.

Definition FindArtifact (rounds : nat) (buildId : Z) (filename : string)
    (w : W) : option (tc_result string * W) :=
  FindArtifact_loop rounds buildId filename [""] w.

End FindArtifact.

End teamcity.

(** ** Collaborators for the examples of the other packages *)

(** [strings.ToLower] on ASCII text. *)
Definition lower_byte (c : ascii) : ascii :=
  let n := N_of_ascii c in
  if ((65 <=? n) && (n <=? 90))%N then ascii_of_N (n + 32) else c.

Fixpoint lower_ascii (s : string) : string :=
  match s with
  | EmptyString => ""
  | String c s' => String (lower_byte c) (lower_ascii s')
  end.

Definition alice : User :=
  {| AccountID := "1"; Email := "alice@example.org"; Name := "";
     DisplayName := "Alice Adams"; Active := true |}.

Definition bob : User :=
  {| AccountID := "2"; Email := "bob@example.org"; Name := "bob";
     DisplayName := "Bob Brown"; Active := true |}.

Definition carol : User :=
  {| AccountID := "3"; Email := "carol@example.org"; Name := "carol";
     DisplayName := "Carol Clark"; Active := false |}.

(** The console is the list of the answers still to come; the server
    knows the three users above. *)
Definition stub_ProxyUserSearch (keyword project : string) (w : list string)
    : result (option (list User)) * list string :=
  (Ok (Some [alice; bob; carol]), w).

Definition stub_Ask (w : list string) : result string * list string :=
  match w with
  | answer :: w' => (Ok answer, w')
  | [] => (Err (External "EOF"), [])
  end.

Definition stub_AskSelect (message : string) (options : list string)
    (w : list string) : result string * list string :=
  stub_Ask w.

Definition stub_AskInput (message : string) (w : list string)
    : result string * list string :=
  stub_Ask w.

Definition stub_lookup (l : option (list User)) : UserLookup :=
  {| Project := "PROJ"; AdditionalOptions := [OptionMe]; users := l;
     searchKeyword := "" |}.

(** A build server with one directory [logs] holding one file. *)
Definition stub_httpGet (url : string) (w : list string)
    : result (Z * string) * list string :=
  (Ok (200, url), w ++ [url]).

Definition stub_Unmarshal (body : string) : result (list teamcity.File) :=
  if String.eqb body "https://tc/app/rest/builds/id:7/artifacts" then
    Ok [ {| teamcity.Name := "logs";
            teamcity.Href := "/app/rest/builds/id:7/artifacts/metadata/logs" |} ]
  else
    Ok [ {| teamcity.Name := "run.log";
            teamcity.Href :=
              "/app/rest/builds/id:7/artifacts/metadata/logs/run.log" |} ].

(** * Proofs *)

(** ** Strings and the matcher *)

Lemma append_nil (s : string) : "" +:+ s = s.
Proof. reflexivity. Qed.

Lemma append_cons (c : ascii) (a s : string) :
  String c a +:+ s = String c (a +:+ s).
Proof. reflexivity. Qed.

Ltac unfold_append := rewrite ?append_cons, ?append_nil.

Lemma substring_skip (pre s : string) (i n : nat) :
  substring (String.length pre + i) n (pre +:+ s) = substring i n s.
Proof.
  induction pre as [|x pre IH]; unfold_append; simpl; [reflexivity | apply IH].
Qed.

Lemma substring_prefix (v post : string) :
  substring 0 (String.length v) (v +:+ post) = v.
Proof.
  induction v as [|x v IH]; unfold_append; simpl.
  - destruct post; reflexivity.
  - now rewrite IH.
Qed.

Lemma slice_reference (pre name post : string) :
  slice (pre +:+ String "$" (name +:+ post))
    (String.length pre + 1) (String.length pre + 1 + String.length name)
  = name.
Proof.
  unfold slice.
  replace (String.length pre + 1 + String.length name - (String.length pre + 1))%nat
    with (String.length name) by lia.
  rewrite substring_skip. simpl. apply substring_prefix.
Qed.

Lemma word_run_append (name post : string) :
  word_run name = String.length name -> word_run post = O ->
  word_run (name +:+ post) = String.length name.
Proof.
  induction name as [|x name IH]; unfold_append; simpl; intros Hn Hp;
    [exact Hp|].
  destruct (is_word x); [|discriminate].
  f_equal. apply IH; [congruence | exact Hp].
Qed.

(** A reference is found by the matcher, wherever the scan stands when
    it reaches it: bytes still to skip are word characters, and the
    marker is none. *)
Lemma find_from_reference (pre name post : string) (pos skip : nat) :
  name <> "" ->
  word_run name = String.length name ->
  word_run post = O ->
  (skip <= word_run (pre +:+ String "$" (name +:+ post)))%nat ->
  In ((pos + String.length pre)%nat,
      (pos + String.length pre + 1 + String.length name)%nat)
     (find_from (pre +:+ String "$" (name +:+ post)) pos skip).
Proof.
  intros Hne Hn Hp. revert pos skip.
  induction pre as [|c pre IH]; intros pos skip Hskip.
  - unfold_append. simpl in Hskip. assert (skip = O) by lia. subst skip.
    simpl. rewrite (word_run_append _ _ Hn Hp).
    destruct name as [|x name]; [congruence|]. simpl String.length.
    left. f_equal; lia.
  - rewrite append_cons in *. simpl String.length.
    replace (pos + S (String.length pre))%nat
      with (S pos + String.length pre)%nat by lia.
    simpl find_from. destruct skip as [|k].
    + destruct (is_dollar c).
      * destruct (word_run (pre +:+ String "$" (name +:+ post))) eqn:Hrun.
        -- apply IH. lia.
        -- right. apply IH. lia.
      * apply IH. lia.
    + apply IH. simpl in Hskip. destruct (is_word c); lia.
Qed.

(** The loop over the matches stops at the first name the mapping does
    not hold. *)
Lemma interpolate_matches_undefined (obj : string) (define : gmap string string)
    (matches : list (nat * nat)) (m0 m1 : nat) :
  In (m0, m1) matches ->
  define !! slice obj (m0 + 1) m1 = None ->
  forall newString lastIdx,
  exists varName,
    interpolate_matches obj define matches newString lastIdx
      = Err (UnknownVariable varName) /\
    define !! varName = None.
Proof.
  intros Hin Hnone. induction matches as [|[a b] rest IH]; [contradiction|].
  intros newString lastIdx. simpl.
  destruct (define !! slice obj (a + 1) b) eqn:Hlk.
  - destruct Hin as [Heq | Hin]; [congruence|]. apply (IH Hin).
  - eauto.
Qed.

Lemma interpolate_string_undefined (s name : string) (define : gmap string string) :
  references s name -> define !! name = None ->
  exists varName,
    interpolate_string s define = Err (UnknownVariable varName) /\
    define !! varName = None.
Proof.
  intros (pre & post & -> & Hne & Hn & Hp) Hnone.
  unfold interpolate_string, FindAllStringIndex.
  pose proof (find_from_reference pre name post O O Hne Hn Hp (Nat.le_0_l _)) as Hin.
  simpl in Hin.
  eapply interpolate_matches_undefined; [exact Hin|].
  replace (String.length pre + 1 + String.length name)%nat
    with (String.length pre + 1 + String.length name)%nat by reflexivity.
  now rewrite slice_reference.
Qed.

(** ** The interpolator on sequences and mappings *)

Lemma interpolateVars_VSeq (define : gmap string string) (l : list value) :
  interpolateVars (VSeq l) define
  = do newSlice <- interpolate_seq define l ; Ok (VSeq newSlice).
Proof.
  simpl. f_equal. induction l as [|v l IH]; simpl; [reflexivity|].
  now rewrite IH.
Qed.

Lemma interpolateVars_VMap (define : gmap string string)
    (m : list (string * value)) :
  interpolateVars (VMap m) define
  = do newMap <- interpolate_map define m ; Ok (VMap newMap).
Proof.
  simpl. f_equal. induction m as [|[k v] m IH]; simpl; [reflexivity|].
  now rewrite IH.
Qed.

Lemma value_rect' (P : value -> Prop)
    (Hstr : forall s, P (VStr s))
    (Hseq : forall l, Forall P l -> P (VSeq l))
    (Hmap : forall m, Forall (fun kv => P kv.2) m -> P (VMap m))
    (Hother : forall t s, P (VOther t s)) :
  forall v, P v.
Proof.
  fix IH 1. intros [s | l | m | t s].
  - apply Hstr.
  - apply Hseq. induction l as [|v l IHl]; constructor; [apply IH | exact IHl].
  - apply Hmap. induction m as [|[k v] m IHm]; constructor;
      [apply IH | exact IHm].
  - apply Hother.
Qed.

Lemma interpolate_string_no_panic (s : string) (define : gmap string string)
    (p : panic) : interpolate_string s define <> Panic p.
Proof.
  unfold interpolate_string. generalize (FindAllStringIndex s) "" O.
  intros matches. induction matches as [|[a b] rest IH]; intros acc i; simpl.
  - discriminate.
  - destruct (define !! slice s (a + 1) b); [apply IH | discriminate].
Qed.

(** The interpolator has no panic of its own. *)
Lemma interpolateVars_no_panic (define : gmap string string) (v : value)
    (p : panic) : interpolateVars v define <> Panic p.
Proof.
  revert p. induction v as [s | l IHl | m IHm | t s] using value_rect';
    intros p.
  - simpl. pose proof (interpolate_string_no_panic s define) as H.
    destruct (interpolate_string s define); simpl; [discriminate.. | ].
    intros [= <-]. now apply (H p0).
  - rewrite interpolateVars_VSeq.
    assert (forall q, interpolate_seq define l <> Panic q) as H.
    { induction IHl as [|v l Hv _ IH]; intros q; simpl; [discriminate|].
      destruct (interpolateVars v define) eqn:E; simpl;
        [| discriminate | intros [= <-]; now apply (Hv p0)].
      destruct (interpolate_seq define l) eqn:E'; simpl;
        [discriminate.. | intros [= <-]; now apply (IH p0)]. }
    destruct (interpolate_seq define l) eqn:E; simpl;
      [discriminate.. | intros [= <-]; now apply (H p0)].
  - rewrite interpolateVars_VMap.
    assert (forall q, interpolate_map define m <> Panic q) as H.
    { induction IHm as [|[k v] m Hv _ IH]; intros q; simpl; [discriminate|].
      simpl in Hv.
      destruct (interpolateVars v define) eqn:E; simpl;
        [| discriminate | intros [= <-]; now apply (Hv p0)].
      destruct (interpolate_map define m) eqn:E'; simpl;
        [discriminate.. | intros [= <-]; now apply (IH p0)]. }
    destruct (interpolate_map define m) eqn:E; simpl;
      [discriminate.. | intros [= <-]; now apply (H p0)].
  - discriminate.
Qed.

(** A failure anywhere inside a value makes the whole interpolation
    fail. *)
Lemma interpolate_seq_fails (define : gmap string string) (l : list value)
    (v : value) (e : error) :
  In v l -> interpolateVars v define = Err e ->
  exists e', interpolate_seq define l = Err e'.
Proof.
  intros Hin Hv. induction l as [|x l IH]; [contradiction|]. simpl.
  destruct (interpolateVars x define) eqn:E; simpl.
  - destruct Hin as [-> | Hin]; [congruence|].
    destruct (IH Hin) as [e' ->]. simpl. eauto.
  - eauto.
  - now apply interpolateVars_no_panic in E.
Qed.

Lemma interpolate_map_fails (define : gmap string string)
    (m : list (string * value)) (k : string) (v : value) (e : error) :
  In (k, v) m -> interpolateVars v define = Err e ->
  exists e', interpolate_map define m = Err e'.
Proof.
  intros Hin Hv. induction m as [|[k' x] m IH]; [contradiction|]. simpl.
  destruct (interpolateVars x define) eqn:E; simpl.
  - destruct Hin as [[= -> ->] | Hin]; [congruence|].
    destruct (IH Hin) as [e' ->]. simpl. eauto.
  - eauto.
  - now apply interpolateVars_no_panic in E.
Qed.

Lemma interpolateVars_occurs_fails (define : gmap string string)
    (inner outer : value) (e : error) :
  occurs_in inner outer -> interpolateVars inner define = Err e ->
  exists e', interpolateVars outer define = Err e'.
Proof.
  intros Hocc Hin. induction Hocc as [| l v Hv _ IH | m k v Hv _ IH].
  - eauto.
  - destruct IH as [e1 IH]. rewrite interpolateVars_VSeq.
    destruct (interpolate_seq_fails define l v e1 Hv IH) as [e' ->].
    simpl. eauto.
  - destruct IH as [e1 IH]. rewrite interpolateVars_VMap.
    destruct (interpolate_map_fails define m k v e1 Hv IH) as [e' ->].
    simpl. eauto.
Qed.

(** Success of the loops, element by element. *)
Lemma interpolate_seq_ok (define : gmap string string) (l l' : list value) :
  interpolate_seq define l = Ok l' <->
  Forall2 (fun x y => interpolateVars x define = Ok y) l l'.
Proof.
  revert l'. induction l as [|x l IH]; intros l'; simpl.
  - split; [intros [= <-]; constructor | intros H; inversion H; reflexivity].
  - split.
    + destruct (interpolateVars x define) eqn:E; simpl; [|discriminate..].
      destruct (interpolate_seq define l) eqn:E'; simpl; [|discriminate..].
      intros [= <-]. constructor; [exact E | now apply IH].
    + intros H. inversion H as [|? y ? r Hx Hr]; subst.
      rewrite Hx. simpl. apply IH in Hr. rewrite Hr. reflexivity.
Qed.

Lemma interpolate_map_ok (define : gmap string string)
    (m m' : list (string * value)) :
  interpolate_map define m = Ok m' <->
  Forall2 (fun kv kv' => kv'.1 = kv.1 /\ interpolateVars kv.2 define = Ok kv'.2)
    m m'.
Proof.
  revert m'. induction m as [|[k x] m IH]; intros m'; simpl.
  - split; [intros [= <-]; constructor | intros H; inversion H; reflexivity].
  - split.
    + destruct (interpolateVars x define) eqn:E; simpl; [|discriminate..].
      destruct (interpolate_map define m) eqn:E'; simpl; [|discriminate..].
      intros [= <-]. constructor; [split; [reflexivity | exact E] | now apply IH].
    + intros H. inversion H as [|? [k' y] ? r [Hk Hx] Hr]; subst.
      simpl in Hk, Hx. subst k'. rewrite Hx. simpl. apply IH in Hr.
      rewrite Hr. reflexivity.
Qed.

(** ** The driver *)

Section DriverFacts.

Context {W : Type}.
Variable json_Marshal : list (string * value) -> result string.
Variable Find : string -> result bool.
Variable ExecuteC : list string -> W -> result string * W.

Local Abbreviation translate := (translate json_Marshal).
Local Abbreviation run_action := (run_action json_Marshal Find ExecuteC).
Local Abbreviation run_actions := (run_actions json_Marshal Find ExecuteC).


Lemma action_name_no_panic (action : list (string * value)) (p : panic) :
  action_name action <> Panic p.
Proof. unfold action_name. repeat case_match; discriminate. Qed.

(** A turn whose interpolation fails stops the run before anything is
    dispatched. *)
Lemma run_action_interpolation_fails (noInput : bool)
    (action : list (string * value)) (define : gmap string string) (w : W)
    (e : error) :
  interpolateVars (VMap action) define = Err e ->
  exists e', run_action noInput action define w = (Err e', w).
Proof.
  intros H. unfold run_action. rewrite H.
  destruct (action_name action) eqn:E; eauto.
  now apply action_name_no_panic in E.
Qed.



(** C3.  A string with a reference to a name the mapping does not hold
    is not interpolated: the interpolator returns the unknown-variable
    error, for a name absent from the mapping, and no string.  An action
    that holds such a string anywhere stops the run with an error, with
    nothing dispatched and the mapping untouched. *)
Theorem interpolateVars_undefined_variable (s name : string)
    (define : gmap string string) :
  references s name ->
  define !! name = None ->
  (exists varName,
     interpolateVars (VStr s) define = Err (UnknownVariable varName) /\
     define !! varName = None) /\
  (forall noInput action rest w,
     occurs_in (VStr s) (VMap action) ->
     exists e,
       run_actions noInput (action :: rest) define w = (Err e, define, w)).
Proof.
  intros Href Hnone.
  destruct (interpolate_string_undefined s name define Href Hnone)
    as (varName & Hs & Hv).
  assert (interpolateVars (VStr s) define = Err (UnknownVariable varName)) as Hi.
  { simpl. now rewrite Hs. }
  split; [eauto|].
  intros noInput action rest w Hocc.
  destruct (interpolateVars_occurs_fails define _ _ _ Hocc Hi) as [e He].
  destruct (run_action_interpolation_fails noInput action define w e He)
    as [e' Hr].
  exists e'. simpl. now rewrite Hr.
Qed.

End DriverFacts.

(** ** The order of the visit *)

Lemma ascii_compare_trans_le (x y z : ascii) :
  (x ?= y)%char <> Gt -> (y ?= z)%char <> Gt -> (x ?= z)%char <> Gt.
Proof.
  unfold Ascii.compare. rewrite !N.compare_le_iff. apply N.le_trans.
Qed.

Lemma string_compare_trans_le (a b c : string) :
  String.compare a b <> Gt -> String.compare b c <> Gt ->
  String.compare a c <> Gt.
Proof.
  revert b c. induction a as [|x a IH]; intros [|y b] [|z c]; simpl;
    try congruence.
  destruct (x ?= y)%char eqn:Exy; [| | congruence].
  - apply Ascii.compare_eq_iff in Exy. subst y.
    destruct (x ?= z)%char; [apply IH | congruence | congruence].
  - intros _ Hyz.
    assert ((x ?= z)%char = Lt) as ->; [| congruence].
    revert Exy Hyz. unfold Ascii.compare.
    destruct (N_of_ascii y ?= N_of_ascii z)%N eqn:Eyz; intros Exy Hyz;
      [| | congruence].
    + apply N.compare_eq_iff in Eyz. now rewrite <- Eyz.
    + rewrite N.compare_lt_iff in *. now apply N.lt_trans with (N_of_ascii y).
Qed.

Lemma string_compare_empty (s : string) : String.compare s "" <> Gt -> s = "".
Proof. destruct s; simpl; congruence. Qed.

Section SortFacts.

Context {A : Type}.
Variable cmp : A -> A -> comparison.
Hypothesis cmp_antisym : forall a b, cmp a b = CompOpp (cmp b a).
Hypothesis cmp_trans :
  forall a b c, cmp a b <> Gt -> cmp b c <> Gt -> cmp a c <> Gt.

Lemma insert_by_Permutation (f : A -> A -> bool) (x : A) (l : list A) :
  Permutation (insert_by f x l) (x :: l).
Proof.
  induction l as [|y l IH]; simpl; [reflexivity|].
  destruct (f x y); [reflexivity|].
  rewrite IH. apply perm_swap.
Qed.

Lemma SortFunc_Permutation (l : list A) : Permutation (SortFunc cmp l) l.
Proof.
  unfold SortFunc. rewrite <- Permutation_rev.
  assert (forall acc,
    Permutation
      (fold_left (fun prefix x => insert_by (stays_right cmp) x prefix) l acc)
      (acc ++ l)) as H.
  { induction l as [|x l IH]; intros acc; simpl.
    - now rewrite app_nil_r.
    - rewrite IH, insert_by_Permutation. apply Permutation_middle. }
  apply (H []).
Qed.

(** The prefix, read from right to left, never goes up. *)
Lemma insert_by_descending (x : A) (l : list A) :
  StronglySorted (fun a b => cmp b a <> Gt) l ->
  StronglySorted (fun a b => cmp b a <> Gt) (insert_by (stays_right cmp) x l).
Proof.
  induction l as [|y l IH]; intros Hs; simpl.
  - repeat constructor.
  - apply StronglySorted_inv in Hs as [Hl Hy].
    assert (cmp x y <> Lt ->
            StronglySorted (fun a b => cmp b a <> Gt) (x :: y :: l)) as Hstop.
    { intros Hxy. assert (cmp y x <> Gt) as Hyx.
      { rewrite cmp_antisym. destruct (cmp x y); simpl; congruence. }
      constructor; [constructor; assumption|].
      constructor; [exact Hyx|].
      eapply Forall_impl; [exact Hy|]. simpl. intros z Hz.
      now apply cmp_trans with y. }
    unfold stays_right at 1. destruct (cmp x y) eqn:Exy.
    + apply Hstop. congruence.
    + constructor; [now apply IH|].
      rewrite insert_by_Permutation. constructor; [congruence | exact Hy].
    + apply Hstop. congruence.
Qed.

Lemma StronglySorted_rev_flip (R : A -> A -> Prop) (l : list A) :
  StronglySorted R l -> StronglySorted (fun a b => R b a) (rev l).
Proof.
  induction 1 as [|x l Hl IH Hx]; simpl; [constructor|].
  apply StronglySorted_app_2; [| exact IH | repeat constructor].
  intros a b Ha Hb. apply list_elem_of_singleton in Hb. subst b.
  apply list_elem_of_In, in_rev, list_elem_of_In in Ha.
  rewrite Forall_forall in Hx. now apply Hx.
Qed.

Lemma SortFunc_StronglySorted (l : list A) :
  StronglySorted (fun a b => cmp a b <> Gt) (SortFunc cmp l).
Proof.
  unfold SortFunc.
  apply (StronglySorted_rev_flip (fun a b => cmp b a <> Gt)).
  assert (forall acc,
    StronglySorted (fun a b => cmp b a <> Gt) acc ->
    StronglySorted (fun a b => cmp b a <> Gt)
      (fold_left (fun prefix x => insert_by (stays_right cmp) x prefix) l acc))
    as H.
  { induction l as [|x l IH]; intros acc Hacc; simpl; [exact Hacc|].
    apply IH. now apply insert_by_descending. }
  apply H. constructor.
Qed.

End SortFacts.

Lemma SetupArgs_keys_Permutation (define : gmap string string)
    (iter : list string) :
  Permutation (SetupArgs_keys define iter) iter.
Proof. apply SortFunc_Permutation. Qed.

Lemma SetupArgs_keys_sorted (define : gmap string string) (iter : list string) :
  StronglySorted (value_le define) (SetupArgs_keys define iter).
Proof.
  unfold SetupArgs_keys, value_le, raw.
  apply (SortFunc_StronglySorted
           (fun a b => String.compare (default "" (define !! a))
                                      (default "" (define !! b)))).
  - intros a b. apply String.compare_antisym.
  - intros a b c. apply string_compare_trans_le.
Qed.

(** ** The resolver *)

Lemma Atoi_head (c : ascii) (s : string) (n : Z) :
  Atoi (String c s) = Some n ->
  (N_of_ascii c = 45 \/ N_of_ascii c = 43 \/
   48 <= N_of_ascii c <= 57)%N.
Proof.
  unfold Atoi, is_minus, is_plus.
  destruct (N_of_ascii c =? 45)%N eqn:E1; [apply N.eqb_eq in E1; auto|].
  destruct (N_of_ascii c =? 43)%N eqn:E2; [apply N.eqb_eq in E2; auto|].
  cbn [orb parse_digits]. unfold digit_of.
  destruct ((48 <=? N_of_ascii c) && (N_of_ascii c <=? 57))%N eqn:E3;
    [| discriminate].
  intros _. apply andb_true_iff in E3 as [H1 H2].
  apply N.leb_le in H1, H2. auto.
Qed.

(** What parses as a number is neither escaped nor a built-in name. *)
Lemma Atoi_not_builtin (varname : string) (n : Z) :
  Atoi varname = Some n ->
  exists c rest,
    varname = String c rest /\
    is_tilde c = false /\
    String.eqb varname "choose_user" = false /\
    String.eqb varname "me" = false.
Proof.
  destruct varname as [|c rest]; [discriminate|].
  intros H. apply Atoi_head in H. exists c, rest.
  split; [reflexivity|].
  assert (forall x : ascii, (N_of_ascii x > 57)%N -> Ascii.eqb c x = false)
    as Hne.
  { intros x Hx. apply Ascii.eqb_neq. intros ->. lia. }
  split; [| split].
  - unfold is_tilde. apply N.eqb_neq. lia.
  - cbn [String.eqb]. rewrite Hne; [reflexivity | reflexivity].
  - cbn [String.eqb]. rewrite Hne; [reflexivity | reflexivity].
Qed.

Section ResolverFacts.

Context {W : Type}.
Variable SelectUser : string -> W -> result string * W.
Variable FindMe : W -> result string * W.
Variable FindUser : string -> W -> result string * W.

Local Abbreviation SetupArgs_visit :=
  (SetupArgs_visit SelectUser FindMe FindUser).
Local Abbreviation SetupArgs_loop :=
  (SetupArgs_loop SelectUser FindMe FindUser).
Local Abbreviation SetupArgs := (SetupArgs SelectUser FindMe FindUser).

(** The visit of a variable whose directive is the marker and a number. *)
Lemma SetupArgs_visit_number (args : list string) (key : string)
    (define : gmap string string) (w : W) (varname : string) (n : Z) :
  define !! key = Some (String "~" varname) ->
  Atoi varname = Some n ->
  SetupArgs_visit args key define w =
    if Z.of_nat (length args) <? n then (Err (MissingArgument n key), w)
    else match index args (n - 1) with
         | Some arg => (Ok (<[key := arg]> define), w)
         | None => (Panic IndexOutOfRange, w)
         end.
Proof.
  intros Hkey Hn.
  destruct (Atoi_not_builtin _ _ Hn) as (c & rest & -> & Hc & Hcu & Hme).
  unfold SetupArgs_visit. rewrite Hkey. cbn [default from_option id].
  change (is_tilde "~") with true. cbv iota.
  rewrite Hc, Hcu, Hme, Hn. reflexivity.
Qed.

(** The visit of an escaped directive keeps what follows the two
    markers. *)
Lemma SetupArgs_visit_escaped (args : list string) (key : string)
    (define : gmap string string) (w : W) (rest : string) :
  define !! key = Some (String "~" (String "~" rest)) ->
  SetupArgs_visit args key define w = (Ok (<[key := rest]> define), w).
Proof.
  intros Hkey. unfold SetupArgs_visit. rewrite Hkey. reflexivity.
Qed.

(** A visit writes to no variable but its own. *)
Lemma SetupArgs_visit_frame (args : list string) (key k : string)
    (define define1 : gmap string string) (w w1 : W) :
  SetupArgs_visit args k define w = (Ok define1, w1) ->
  key <> k ->
  define1 !! key = define !! key.
Proof.
  unfold SetupArgs_visit, set_name. intros H Hne.
  repeat case_match; simplify_eq; try reflexivity;
    now apply lookup_insert_ne.
Qed.

Lemma SetupArgs_loop_frame (args keys : list string) (key : string)
    (define define' : gmap string string) (w w' : W) :
  key ∉ keys ->
  SetupArgs_loop args keys define w = (Ok define', w') ->
  define' !! key = define !! key.
Proof.
  revert define w. induction keys as [|k keys IH]; intros define w Hnot; simpl.
  - now intros [= <- <-].
  - apply not_elem_of_cons in Hnot as [Hne Hnot].
    destruct (SetupArgs_visit args k define w) as [[d1 | e | p] w1] eqn:E;
      [| discriminate ..].
    intros Hloop. rewrite (IH _ _ Hnot Hloop).
    eapply SetupArgs_visit_frame; eassumption.
Qed.

(** In a run of the loop that ends well, each variable was visited once,
    with the directive it had at the start, and keeps what that visit
    gave it. *)
Lemma SetupArgs_loop_visited (args keys : list string) (key : string)
    (define define' : gmap string string) (w w' : W) :
  NoDup keys -> key ∈ keys ->
  SetupArgs_loop args keys define w = (Ok define', w') ->
  exists define0 w0 define1 w1,
    define0 !! key = define !! key /\
    SetupArgs_visit args key define0 w0 = (Ok define1, w1) /\
    define' !! key = define1 !! key.
Proof.
  revert define w. induction keys as [|k keys IH]; intros define w Hnd Hin.
  - now apply elem_of_nil in Hin.
  - apply NoDup_cons in Hnd as [Hk Hnd]. simpl.
    destruct (SetupArgs_visit args k define w) as [[d1 | e | p] w1] eqn:E;
      [| discriminate ..].
    intros Hloop. destruct (decide (key = k)) as [-> | Hne].
    + exists define, w, d1, w1. split; [reflexivity | split; [exact E|]].
      eapply SetupArgs_loop_frame; eassumption.
    + apply elem_of_cons in Hin as [? | Hin]; [contradiction|].
      destruct (IH _ _ Hnd Hin Hloop) as (d0 & w0 & d2 & w2 & H0 & Hv & H').
      exists d0, w0, d2, w2. split; [| split; assumption].
      rewrite H0. eapply SetupArgs_visit_frame; eassumption.
Qed.

Lemma SetupArgs_loop_cons (args keys : list string) (key : string)
    (define : gmap string string) (w : W) :
  SetupArgs_loop args (key :: keys) define w =
    match SetupArgs_visit args key define w with
    | (Ok define1, w1) => SetupArgs_loop args keys define1 w1
    | stop => stop
    end.
Proof. reflexivity. Qed.


(** C1 (as the code has it).  For the directive [~~foo] the resolver
    leaves [foo] in the mapping: the branch commented "Escaped tilde"
    drops both markers, where the specification keeps one ([~foo]). *)
Theorem SetupArgs_escaped_literal_drops_both_markers (w : W) :
  SetupArgs {["v" := "~~foo"]} [] ["v"] w = (Ok {["v" := "foo"]}, w).
Proof.
  unfold SetupArgs. change (SetupArgs_keys _ _) with ["v"].
  rewrite SetupArgs_loop_cons.
  rewrite (SetupArgs_visit_escaped [] "v" _ w "foo");
    [| apply lookup_singleton_eq].
  now rewrite insert_singleton_eq.
Qed.


(** C5.  For a variable whose directive is the marker followed by what
    parses as an integer [n >= 1]: with at least [n] arguments, the visit
    binds the variable to the [n]-th of them (the one at index [n - 1]),
    and every resolution that ends well has it bound so; with fewer, the
    visit fails with the missing-argument error for [n] and the
    variable, and no resolution ends well. *)
Theorem SetupArgs_positional_argument (args : list string) (key : string)
    (define : gmap string string) (w : W) (varname : string) (n : Z) :
  define !! key = Some (String "~" varname) ->
  Atoi varname = Some n ->
  1 <= n ->
  (n <= Z.of_nat (length args) ->
   exists arg,
     args !! Z.to_nat (n - 1) = Some arg /\
     SetupArgs_visit args key define w = (Ok (<[key := arg]> define), w) /\
     forall iter define' w0 w',
       NoDup iter -> key ∈ iter ->
       SetupArgs define args iter w0 = (Ok define', w') ->
       define' !! key = Some arg) /\
  (Z.of_nat (length args) < n ->
   SetupArgs_visit args key define w = (Err (MissingArgument n key), w) /\
   forall iter define' w0 w',
     NoDup iter -> key ∈ iter ->
     SetupArgs define args iter w0 <> (Ok define', w')).
Proof.
  intros Hkey Hn Hpos.
  assert (forall define0 w0, define0 !! key = define !! key ->
          SetupArgs_visit args key define0 w0 =
            if Z.of_nat (length args) <? n
            then (Err (MissingArgument n key), w0)
            else match index args (n - 1) with
                 | Some arg => (Ok (<[key := arg]> define0), w0)
                 | None => (Panic IndexOutOfRange, w0)
                 end) as Hvisit.
  { intros define0 w0 H0. eapply SetupArgs_visit_number; [| exact Hn].
    now rewrite H0. }
  assert (forall iter define' w0 w',
          NoDup iter -> key ∈ iter ->
          SetupArgs define args iter w0 = (Ok define', w') ->
          exists define0 w1 define1 w2,
            SetupArgs_visit args key define0 w1 = (Ok define1, w2) /\
            define0 !! key = define !! key /\
            define' !! key = define1 !! key) as Hrun.
  { intros iter define' w0 w' Hnd Hin Hok. unfold SetupArgs in Hok.
    pose proof (SetupArgs_keys_Permutation define iter) as Hp.
    eapply SetupArgs_loop_visited in Hok
      as (d0 & w1 & d1 & w2 & H0 & Hv & H'); eauto 10.
    - now rewrite Hp.
    - now rewrite Hp. }
  split.
  - intros Hlen.
    assert (exists arg, args !! Z.to_nat (n - 1) = Some arg) as [arg Harg].
    { apply lookup_lt_is_Some. lia. }
    assert (index args (n - 1) = Some arg) as Hidx.
    { unfold index. destruct (Z.ltb_spec (n - 1) 0); [lia | exact Harg]. }
    assert ((Z.of_nat (length args) <? n) = false) as Hlt by lia.
    exists arg. split; [exact Harg|]. split.
    + rewrite (Hvisit define w eq_refl), Hlt, Hidx. reflexivity.
    + intros iter define' w0 w' Hnd Hin Hok.
      destruct (Hrun _ _ _ _ Hnd Hin Hok)
        as (d0 & w1 & d1 & w2 & Hv & H0 & H').
      rewrite (Hvisit d0 w1 H0), Hlt, Hidx in Hv.
      injection Hv as <- <-. rewrite H'. apply lookup_insert_eq.
  - intros Hlen.
    assert ((Z.of_nat (length args) <? n) = true) as Hlt by lia.
    split.
    + rewrite (Hvisit define w eq_refl), Hlt. reflexivity.
    + intros iter define' w0 w' Hnd Hin Hok.
      destruct (Hrun _ _ _ _ Hnd Hin Hok)
        as (d0 & w1 & d1 & w2 & Hv & H0 & H').
      rewrite (Hvisit d0 w1 H0), Hlt in Hv. discriminate.
Qed.

(** C9.  As soon as one variable of the mapping has the empty string
    for its value, resolution panics on an index out of range: the
    empty string sorts first, so the first visit reads the first byte
    of an empty value. *)
Theorem SetupArgs_empty_value_panics (define : gmap string string)
    (args iter : list string) (w : W) (key : string) :
  key ∈ iter ->
  define !! key = Some "" ->
  SetupArgs define args iter w = (Panic IndexOutOfRange, w).
Proof.
  intros Hin Hkey. unfold SetupArgs.
  pose proof (SetupArgs_keys_Permutation define iter) as Hp.
  pose proof (SetupArgs_keys_sorted define iter) as Hs.
  rewrite <- Hp in Hin.
  destruct (SetupArgs_keys define iter) as [|k0 keys]; [now apply elem_of_nil in Hin|].
  assert (raw define k0 = "") as Hk0.
  { apply string_compare_empty.
    apply elem_of_cons in Hin as [<- | Hin].
    - unfold raw. rewrite Hkey. discriminate.
    - apply StronglySorted_inv in Hs as [_ Hall].
      rewrite Forall_forall in Hall. specialize (Hall _ Hin).
      unfold value_le in Hall. unfold raw at 2 in Hall.
      now rewrite Hkey in Hall. }
  rewrite SetupArgs_loop_cons. unfold SetupArgs_visit.
  unfold raw in Hk0. rewrite Hk0. reflexivity.
Qed.

(** C10.  For a variable whose directive is the marker followed by what
    parses as an integer [n]: if [n] is zero or negative the guard on
    the number of arguments lets it through and the visit panics on the
    index [n - 1]; if [n] is at least one the visit does not panic. *)
Theorem SetupArgs_nonpositive_index_panics (args : list string) (key : string)
    (define : gmap string string) (w : W) (varname : string) (n : Z) :
  define !! key = Some (String "~" varname) ->
  Atoi varname = Some n ->
  (n <= 0 ->
   (Z.of_nat (length args) <? n) = false /\
   SetupArgs_visit args key define w = (Panic IndexOutOfRange, w)) /\
  (1 <= n ->
   forall p w', SetupArgs_visit args key define w <> (Panic p, w')).
Proof.
  intros Hkey Hn. rewrite (SetupArgs_visit_number _ _ _ _ _ _ Hkey Hn).
  split.
  - intros Hle. assert ((Z.of_nat (length args) <? n) = false) as Hlt
      by (apply Z.ltb_ge; lia).
    rewrite Hlt. split; [reflexivity|].
    unfold index. destruct (Z.ltb_spec (n - 1) 0); [reflexivity | lia].
  - intros Hpos p w'.
    destruct (Z.ltb_spec (Z.of_nat (length args)) n); [discriminate|].
    unfold index. destruct (Z.ltb_spec (n - 1) 0); [lia|].
    destruct (lookup_lt_is_Some_2 args (Z.to_nat (n - 1))) as [arg ->];
      [lia | discriminate].
Qed.

End ResolverFacts.

(** ** The interpolator keeps the shape *)



(** What the interpolator returns for a sequence is a sequence, and for
    a mapping a mapping, of the shape above. *)
Lemma interpolateVars_VSeq_inv (define : gmap string string) (l : list value)
    (r : value) :
  interpolateVars (VSeq l) define = Ok r ->
  exists l', r = VSeq l' /\ length l' = length l /\
    Forall2 (fun x y => interpolateVars x define = Ok y) l l'.
Proof.
  rewrite interpolateVars_VSeq.
  destruct (interpolate_seq define l) as [l'| |] eqn:E; simpl; [|discriminate..].
  intros [= <-]. apply interpolate_seq_ok in E. exists l'.
  split; [reflexivity | split; [| exact E]].
  symmetry. eapply Forall2_length. exact E.
Qed.

Lemma interpolateVars_VMap_inv (define : gmap string string)
    (m : list (string * value)) (r : value) :
  interpolateVars (VMap m) define = Ok r ->
  exists m', r = VMap m' /\ map fst m' = map fst m.
Proof.
  rewrite interpolateVars_VMap.
  destruct (interpolate_map define m) as [m'| |] eqn:E; simpl; [|discriminate..].
  intros [= <-]. apply interpolate_map_ok in E. exists m'.
  split; [reflexivity|].
  induction E as [|kv kv' ? ? [Hk _] _ IH]; simpl;
    [reflexivity | now rewrite Hk, IH].
Qed.

(** ** The translator *)

Section TranslatorFacts.

Variable json_Marshal : list (string * value) -> result string.

Local Abbreviation custom_loop := (custom_loop json_Marshal).
Local Abbreviation translate_field := (translate_field json_Marshal).
Local Abbreviation translate := (translate json_Marshal).
Local Abbreviation custom_flag := (custom_flag json_Marshal).

Lemma custom_loop_ok (customs : list (string * value)) (args out : list string) :
  custom_loop customs args = Ok out <->
  exists flags, Forall2 custom_flag customs flags /\ out = args ++ concat flags.
Proof.
  revert args. induction customs as [|[fname fvalue] rest IH]; intros args.
  - simpl. split.
    + intros [= <-]. exists []. split; [constructor | now rewrite app_nil_r].
    + intros (flags & Hf & ->). inversion Hf. simpl. now rewrite app_nil_r.
  - assert (forall flag,
              (exists flags, Forall2 custom_flag rest flags /\
                             out = (args ++ flag) ++ concat flags) ->
              custom_flag (fname, fvalue) flag ->
              exists flags, Forall2 custom_flag ((fname, fvalue) :: rest) flags /\
                            out = args ++ concat flags) as Hcons.
    { intros flag (flags & Hf & ->) Hflag. exists (flag :: flags).
      split; [now constructor | simpl; now rewrite app_assoc]. }
    split.
    + simpl. destruct fvalue as [s | l | mapval | t s].
      3: destruct (json_Marshal mapval) as [strval| |] eqn:E; simpl;
           [| discriminate ..].
      all: rewrite <- app_assoc; intros H; apply IH in H;
        eapply Hcons; [exact H|]; unfold custom_flag; simpl; eauto.
    + intros (flags & Hf & ->).
      inversion Hf as [| ? flag ? flags' Hflag Hrest]; subst.
      unfold custom_flag in Hflag. simpl in Hflag. simpl.
      destruct fvalue as [s | l | mapval | t s].
      3: destruct Hflag as (strval & -> & Hflag); simpl.
      all: subst flag; rewrite <- app_assoc; apply IH; exists flags';
        split; [exact Hrest | simpl; now rewrite <- app_assoc].
Qed.

Lemma fold_left_flags (key : string) (items : list value) (args : list string) :
  fold_left (fun args item => (args ++ ["--" +:+ key]) ++ [fmt_Sprint item])
    items args
  = args ++ concat (map (fun item => ["--" +:+ key; fmt_Sprint item]) items).
Proof.
  revert args. induction items as [|x items IH]; intros args; simpl.
  - now rewrite app_nil_r.
  - rewrite IH, <- !app_assoc. reflexivity.
Qed.

(** The translator only ever appends to the argument vector. *)
Lemma translate_field_extends (key : string) (v : value)
    (args out : list string) :
  translate_field key v args = Ok out -> exists more, out = args ++ more.
Proof.
  unfold translate_field.
  assert (forall (f : value -> list string) l acc,
            fold_left (fun args x => args ++ f x) l acc
            = acc ++ concat (map f l)) as Hfold.
  { intros f l. induction l as [|x l IH]; intros acc; simpl.
    - now rewrite app_nil_r.
    - now rewrite IH, app_assoc. }
  destruct (String.eqb key "action"); [intros [= <-]; exists []; now rewrite app_nil_r|].
  destruct (String.eqb key "args").
  { destruct v; intros [= <-]; eauto. }
  destruct (String.eqb key "custom").
  { destruct v; try discriminate. intros H.
    apply custom_loop_ok in H as (flags & _ & ->). eauto. }
  destruct v; intros [= <-]; rewrite <- ?app_assoc; eauto.
  rewrite fold_left_flags. eauto.
Qed.

Lemma translate_app (pre post : list (string * value)) (args : list string) :
  translate (pre ++ post) args =
    do args1 <- translate pre args ; translate post args1.
Proof.
  revert args. induction pre as [|[k v] pre IH]; intros args; simpl.
  - reflexivity.
  - destruct (translate_field k v args); simpl; [apply IH | reflexivity..].
Qed.

Lemma translate_extends (action : list (string * value))
    (args out : list string) :
  translate action args = Ok out -> exists more, out = args ++ more.
Proof.
  revert args. induction action as [|[k v] action IH]; intros args; simpl.
  - intros [= <-]. exists []. now rewrite app_nil_r.
  - destruct (translate_field k v args) as [args1| |] eqn:E; simpl;
      [| discriminate ..].
    intros H. apply translate_field_extends in E as [more1 ->].
    apply IH in H as [more ->]. exists (more1 ++ more). now rewrite app_assoc.
Qed.

(** Where a field stands in the action, its arguments stand in the
    vector: after those of the fields before it, before those of the
    fields after it. *)
Lemma translate_field_in_place (pre post : list (string * value))
    (key : string) (v : value) (args0 out : list string) :
  translate (pre ++ (key, v) :: post) args0 = Ok out ->
  exists before flags after,
    translate pre args0 = Ok before /\
    translate_field key v before = Ok (before ++ flags) /\
    out = before ++ flags ++ after.
Proof.
  rewrite translate_app.
  destruct (translate pre args0) as [before| |]; simpl; [| discriminate ..].
  destruct (translate_field key v before) as [args1| |] eqn:E; simpl;
    [| discriminate ..].
  intros H. destruct (translate_field_extends _ _ _ _ E) as [flags ->].
  apply translate_extends in H as [after ->].
  exists before, flags, after. now rewrite app_assoc.
Qed.

(** C6.  The [custom] field of an action.  If its value is a mapping,
    the translator appends, entry after entry, [--custom] followed by
    [json:name=] and the JSON encoding of the value when that value is a
    mapping, by [name=] and the rendered value when it is not; it fails
    only when the encoder does.  If its value is not a mapping, the
    translator returns the error of the [custom] field.  In a whole
    action that translates, the [custom] field is a mapping and its
    arguments stand in the vector where the field stands in the action. *)
Theorem translate_custom_field (args : list string) :
  (forall customs out,
     translate_field "custom" (VMap customs) args = Ok out <->
     exists flags,
       Forall2 custom_flag customs flags /\ out = args ++ concat flags) /\
  (forall v, (forall customs, v <> VMap customs) ->
     translate_field "custom" v args = Err CustomNotMap) /\
  (forall pre post v args0 out,
     translate (pre ++ ("custom", v) :: post) args0 = Ok out ->
     exists customs before flags after,
       v = VMap customs /\
       Forall2 custom_flag customs flags /\
       out = before ++ concat flags ++ after).
Proof.
  split; [| split].
  - intros customs out. apply custom_loop_ok.
  - intros v Hv. destruct v; try reflexivity. now destruct (Hv m).
  - intros pre post v args0 out H.
    apply translate_field_in_place in H
      as (before & flags & after & _ & Hfield & ->).
    destruct v as [s | l | customs | t s]; try discriminate.
    apply custom_loop_ok in Hfield as (flags' & Hf & Heq).
    apply app_inv_head in Heq. subst flags.
    exists customs, before, flags', after. auto.
Qed.

(** C7.  A field [key] other than [action], [args] and [custom].  For a
    sequence the translator appends [--key] and the rendered element,
    once for each element and in the order of the sequence; for any
    other value it appends [--key] and the rendered value, once; a string
    is rendered as itself.  In a whole action that translates, these
    arguments stand in the vector where the field stands in the action. *)
Theorem translate_generic_field (key : string) (args : list string) :
  key <> "action" -> key <> "args" -> key <> "custom" ->
  (forall items,
     translate_field key (VSeq items) args =
       Ok (args ++
           concat (map (fun item => ["--" +:+ key; fmt_Sprint item]) items))) /\
  (forall v, (forall items, v <> VSeq items) ->
     translate_field key v args = Ok (args ++ ["--" +:+ key; fmt_Sprint v])) /\
  (forall s, fmt_Sprint (VStr s) = s) /\
  (forall pre post v args0 out,
     translate (pre ++ (key, v) :: post) args0 = Ok out ->
     exists before after,
       out = before ++
             match v with
             | VSeq items =>
                 concat (map (fun item => ["--" +:+ key; fmt_Sprint item]) items)
             | _ => ["--" +:+ key; fmt_Sprint v]
             end ++ after).
Proof.
  intros Haction Hargs Hcustom.
  apply String.eqb_neq in Haction, Hargs, Hcustom.
  assert (forall items args,
            translate_field key (VSeq items) args =
              Ok (args ++
                  concat (map (fun item => ["--" +:+ key; fmt_Sprint item]) items)))
    as Hseq.
  { intros items args'. unfold translate_field.
    rewrite Haction, Hargs, Hcustom. now rewrite fold_left_flags. }
  assert (forall v args, (forall items, v <> VSeq items) ->
            translate_field key v args
            = Ok (args ++ ["--" +:+ key; fmt_Sprint v])) as Hone.
  { intros v args' Hv. unfold translate_field.
    rewrite Haction, Hargs, Hcustom.
    destruct v; try (now rewrite <- app_assoc). now destruct (Hv l). }
  split; [intros; apply Hseq | split; [intros; now apply Hone | split]].
  - reflexivity.
  - intros pre post v args0 out H.
    apply translate_field_in_place in H
      as (before & flags & after & _ & Hfield & ->).
    exists before, after. f_equal. f_equal.
    destruct v as [s | items | m | t s].
    2: rewrite Hseq in Hfield.
    1,3,4: rewrite Hone in Hfield by discriminate.
    all: injection Hfield as Hfield; now apply app_inv_head in Hfield.
Qed.

End TranslatorFacts.

(** ** The scenarios of the specification, run *)

Example scenario_A :
  stub_runScript
    {| Define := {["name" := "~1"]};
       Actions := [[("action", VStr "create");
                    ("summary", VStr "Build $name")]] |}
    ["widget"] ["name"] false []
  = (Ok tt,
     <["issue_key" := "PROJ-7"]> {["name" := "widget"]},
     [["issue"; "create"; "--summary"; "Build widget"]]).
Proof. vm_compute. reflexivity. Qed.

Example interpolate_two_references :
  interpolateVars (VStr "Build $name for $who!")
    (<["name" := "widget"]> {["who" := "me"]})
  = Ok (VStr "Build widget for me!").
Proof. vm_compute. reflexivity. Qed.

Example interpolate_adjacent_references :
  interpolateVars (VStr "$a$b $$a $ end$") (<["a" := "1"]> {["b" := "2"]})
  = Ok (VStr "12 $1 $ end$").
Proof. vm_compute. reflexivity. Qed.

Example interpolate_no_marker :
  interpolateVars (VSeq [VStr "plain text"; VMap [("k", VStr "v")]]) ∅
  = Ok (VSeq [VStr "plain text"; VMap [("k", VStr "v")]]).
Proof. vm_compute. reflexivity. Qed.

Example interpolate_number_leaf :
  interpolateVars (VMap [("points", VOther "int" "3")]) ∅
  = Err (UnexpectedType "int").
Proof. vm_compute. reflexivity. Qed.

Example scenario_B :
  stub_runScript
    {| Define := ∅;
       Actions := [[("action", VStr "create"); ("summary", VStr "first")];
                   [("action", VStr "comment"); ("args", VStr "$issue_key")]] |}
    [] [] false []
  = (Ok tt, {["issue_key" := "PROJ-7"]},
     [["issue"; "create"; "--summary"; "first"];
      ["issue"; "comment"; "PROJ-7"]]).
Proof. vm_compute. reflexivity. Qed.

Example scenario_B_second_action_alone :
  stub_runScript
    {| Define := ∅;
       Actions := [[("action", VStr "comment"); ("args", VStr "$issue_key")]] |}
    [] [] false []
  = (Err (UnknownVariable "issue_key"), ∅, []).
Proof. vm_compute. reflexivity. Qed.

Example scenario_C :
  translate json_Marshal_strings
    [("action", VStr "update");
     ("custom", VMap [("risk", VMap [("level", VStr "high")])])]
    ["issue"; "update"]
  = Ok ["issue"; "update"; "--custom";
        "json:risk={" +:+ json_string "level" +:+ ":" +:+ json_string "high"
        +:+ "}"].
Proof. vm_compute. reflexivity. Qed.

Example scenario_C_scalar_custom :
  translate json_Marshal_strings
    [("custom", VMap [("team", VStr "core")])] ["issue"; "update"]
  = Ok ["issue"; "update"; "--custom"; "team=core"].
Proof. vm_compute. reflexivity. Qed.

Example scenario_D :
  translate json_Marshal_strings
    [("action", VStr "label"); ("labels", VSeq [VStr "a"; VStr "b"])]
    ["issue"; "label"]
  = Ok ["issue"; "label"; "--labels"; "a"; "--labels"; "b"].
Proof. vm_compute. reflexivity. Qed.

(** The order of the visit is that of the raw directives: [b], whose
    directive [~8] is below [~9], is visited, and fails, first. *)
Example visit_order_by_value :
  SetupArgs_keys (<["a" := "~9"]> {["b" := "~8"]}) ["a"; "b"] = ["b"; "a"] /\
  stub_SetupArgs (<["a" := "~9"]> {["b" := "~8"]}) [] ["a"; "b"] []
  = (Err (MissingArgument 8 "b"), []).
Proof. split; vm_compute; reflexivity. Qed.

Example choose_user_before_me :
  SetupArgs_keys (<["a" := "~me"]> {["b" := "~choose_user"]}) ["a"; "b"]
  = ["b"; "a"].
Proof. vm_compute. reflexivity. Qed.

Example positional_first_argument :
  stub_SetupArgs {["v" := "~1"]} ["widget"; "gadget"] ["v"] []
  = (Ok {["v" := "widget"]}, []).
Proof. vm_compute. reflexivity. Qed.

Example directive_zero_panics :
  stub_SetupArgs {["v" := "~0"]} ["widget"] ["v"] []
  = (Panic IndexOutOfRange, []).
Proof. vm_compute. reflexivity. Qed.

Example directive_minus_one_panics :
  stub_SetupArgs {["v" := "~-1"]} ["widget"] ["v"] []
  = (Panic IndexOutOfRange, []).
Proof. vm_compute. reflexivity. Qed.

Example directive_unknown :
  stub_SetupArgs {["v" := "~nobody"]} ["widget"] ["v"] []
  = (Err (UnknownBuiltin "~nobody"), []).
Proof. vm_compute. reflexivity. Qed.

Example directive_me :
  stub_SetupArgs (<["a" := "~me"]> {["b" := "~choose_user"]}) [] ["a"; "b"] []
  = (Ok (<["a" := "jdoe"]> {["b" := "jdoe"]}), []).
Proof. vm_compute. reflexivity. Qed.

(** ** The theorems at concrete inputs *)


Lemma interpolateVars_undefined_variable_witness :
  references "Build $name" "name" /\
  (∅ : gmap string string) !! "name" = None /\
  (exists varName,
     interpolateVars (VStr "Build $name") ∅ = Err (UnknownVariable varName) /\
     (∅ : gmap string string) !! varName = None) /\
  (exists e,
     run_actions json_Marshal_strings stub_Find stub_ExecuteC false
       [[("action", VStr "create"); ("labels", VSeq [VStr "Build $name"])]]
       ∅ []
     = (Err e, ∅, [])).
Proof.
  assert (references "Build $name" "name") as Href.
  { exists "Build ", "". repeat split; [discriminate | reflexivity ..]. }
  assert ((∅ : gmap string string) !! "name" = None) as Hnone by reflexivity.
  split; [exact Href | split; [exact Hnone|]].
  destruct (interpolateVars_undefined_variable json_Marshal_strings stub_Find
              stub_ExecuteC _ _ _ Href Hnone) as [Hstr Hrun].
  split; [exact Hstr|].
  apply Hrun.
  eapply occurs_map; [right; left; reflexivity|].
  eapply occurs_seq; [left; reflexivity | constructor].
Defined.

Lemma SetupArgs_positional_argument_witness :
  SetupArgs_visit stub_SelectUser stub_FindMe stub_FindUser
    ["widget"; "gadget"] "v" {["v" := "~2"]} []
  = (Ok (<["v" := "gadget"]> {["v" := "~2"]}), []) /\
  SetupArgs_visit stub_SelectUser stub_FindMe stub_FindUser
    ["widget"] "v" {["v" := "~2"]} []
  = (Err (MissingArgument 2 "v"), []).
Proof.
  assert (({["v" := "~2"]} : gmap string string) !! "v" = Some "~2") as Hkey
    by (vm_compute; reflexivity).
  assert (Atoi "2" = Some 2) as Hn by reflexivity.
  assert (1 <= 2) as Hpos by lia.
  split.
  - destruct (SetupArgs_positional_argument stub_SelectUser stub_FindMe
                stub_FindUser ["widget"; "gadget"] "v" {["v" := "~2"]} []
                "2" 2 Hkey Hn Hpos) as [Hok _].
    destruct Hok as (arg & Harg & Hvisit & _); [simpl; lia|].
    injection Harg as <-. exact Hvisit.
  - destruct (SetupArgs_positional_argument stub_SelectUser stub_FindMe
                stub_FindUser ["widget"] "v" {["v" := "~2"]} []
                "2" 2 Hkey Hn Hpos) as [_ Hmissing].
    apply Hmissing. simpl. lia.
Defined.

Lemma translate_generic_field_witness :
  translate_field json_Marshal_strings "labels" (VSeq [VStr "a"; VStr "b"])
    ["issue"; "label"]
  = Ok ["issue"; "label"; "--labels"; "a"; "--labels"; "b"] /\
  translate_field json_Marshal_strings "summary" (VStr "Build widget")
    ["issue"; "create"]
  = Ok ["issue"; "create"; "--summary"; "Build widget"].
Proof.
  split.
  - exact (proj1 (translate_generic_field json_Marshal_strings "labels"
                    ["issue"; "label"]
                    ltac:(discriminate) ltac:(discriminate) ltac:(discriminate))
             [VStr "a"; VStr "b"]).
  - exact (proj1 (proj2 (translate_generic_field json_Marshal_strings "summary"
                    ["issue"; "create"]
                    ltac:(discriminate) ltac:(discriminate) ltac:(discriminate)))
             (VStr "Build widget") ltac:(discriminate)).
Defined.


Lemma SetupArgs_empty_value_panics_witness :
  stub_SetupArgs (<["a" := ""]> {["b" := "~1"]}) ["widget"] ["b"; "a"] []
  = (Panic IndexOutOfRange, []).
Proof.
  apply (SetupArgs_empty_value_panics stub_SelectUser stub_FindMe stub_FindUser
           _ _ _ _ "a").
  - right. left.
  - vm_compute. reflexivity.
Defined.

Lemma SetupArgs_nonpositive_index_panics_witness :
  SetupArgs_visit stub_SelectUser stub_FindMe stub_FindUser
    ["widget"] "v" {["v" := "~0"]} []
  = (Panic IndexOutOfRange, []) /\
  SetupArgs_visit stub_SelectUser stub_FindMe stub_FindUser
    ["widget"] "v" {["v" := "~-1"]} []
  = (Panic IndexOutOfRange, []).
Proof.
  assert (({["v" := "~0"]} : gmap string string) !! "v" = Some "~0") as Hzero
    by (vm_compute; reflexivity).
  assert (({["v" := "~-1"]} : gmap string string) !! "v" = Some "~-1") as Hneg
    by (vm_compute; reflexivity).
  split.
  - destruct (SetupArgs_nonpositive_index_panics stub_SelectUser stub_FindMe
                stub_FindUser ["widget"] "v" {["v" := "~0"]} [] "0" 0
                Hzero eq_refl) as [Hpanic _].
    apply Hpanic. lia.
  - destruct (SetupArgs_nonpositive_index_panics stub_SelectUser stub_FindMe
                stub_FindUser ["widget"] "v" {["v" := "~-1"]} [] "-1" (-1)
                Hneg eq_refl) as [Hpanic _].
    apply Hpanic. lia.
Defined.


(** * The rest of the package *)

(** ** The string case of the interpolator, from left to right *)

Lemma append_nil_r (s : string) : s +:+ "" = s.
Proof.
  induction s as [|c s IH]; unfold_append; [reflexivity | now rewrite IH].
Qed.

Lemma append_assoc (a b c : string) : (a +:+ b) +:+ c = a +:+ (b +:+ c).
Proof.
  induction a as [|x a IH]; unfold_append; [reflexivity | now rewrite IH].
Qed.

Lemma length_append (a b : string) :
  String.length (a +:+ b) = (String.length a + String.length b)%nat.
Proof.
  induction a as [|x a IH]; unfold_append; simpl;
    [reflexivity | now rewrite IH].
Qed.

Lemma append_snoc (pre : string) (c : ascii) (s : string) :
  pre +:+ String c s = (pre +:+ String c "") +:+ s.
Proof. now rewrite append_assoc. Qed.

Lemma substring_zero (i : nat) (s : string) : substring i 0 s = "".
Proof.
  revert i. induction s as [|c s IH]; intros [|i]; simpl; auto.
Qed.

Lemma slice_empty (obj : string) (i j : nat) : (j <= i)%nat -> slice obj i j = "".
Proof.
  intros H. unfold slice. replace (j - i)%nat with O by lia.
  apply substring_zero.
Qed.

(** The pending text [obj[lastIdx:pos]] grows by the byte at [pos]. *)
Lemma slice_snoc (pre : string) (c : ascii) (s : string) (i : nat) :
  (i <= String.length pre)%nat ->
  slice (pre +:+ String c s) i (S (String.length pre))
  = slice (pre +:+ String c s) i (String.length pre) +:+ String c "".
Proof.
  unfold slice. revert i. induction pre as [|x pre IH]; intros i Hi.
  - simpl in Hi. assert (i = O) by lia. subst i. unfold_append. simpl.
    now rewrite substring_zero.
  - rewrite append_cons. destruct i as [|i].
    + simpl String.length. simpl Nat.sub. simpl substring.
      specialize (IH O (Nat.le_0_l _)). rewrite !Nat.sub_0_r in IH.
      destruct (String.length pre) eqn:E.
      * destruct pre; [|discriminate]. unfold_append. simpl.
        now rewrite substring_zero.
      * rewrite append_cons. f_equal. rewrite <- E. simpl in IH.
        rewrite E in *. exact IH.
    + simpl String.length in *. simpl substring.
      replace (S (S (String.length pre)) - S i)%nat
        with (S (String.length pre) - i)%nat by lia.
      replace (S (String.length pre) - S i)%nat
        with (String.length pre - i)%nat by lia.
      apply IH. lia.
Qed.

Lemma slice_name (pre : string) (c : ascii) (s : string) (n : nat) :
  slice (pre +:+ String c s) (String.length pre + 1)
    (String.length pre + 1 + n)
  = substring 0 n s.
Proof.
  unfold slice.
  replace (String.length pre + 1 + n - (String.length pre + 1))%nat
    with n by lia.
  rewrite substring_skip. reflexivity.
Qed.

Lemma bind_Ok {A} (r : result A) : (do x <- r ; Ok x) = r.
Proof. now destruct r. Qed.

Lemma bind_bind {A B C} (r : result A) (f : A -> result B) (g : B -> result C) :
  (do y <- (do x <- r ; f x) ; g y) = (do x <- r ; do y <- f x ; g y).
Proof. now destruct r. Qed.

(** The loop over the matches, wherever it stands in the subject,
    returns what it has built, then the text pending since the last
    match, then the expansion of what is left. *)
Lemma interpolate_matches_expand (define : gmap string string)
    (s pre : string) (skip : nat) (newString : string) (lastIdx : nat) :
  (skip = O -> (lastIdx <= String.length pre)%nat) ->
  (skip <> O -> lastIdx = (String.length pre + skip)%nat) ->
  interpolate_matches (pre +:+ s) define
    (find_from s (String.length pre) skip) newString lastIdx
  = do r <- expand define s skip ;
    Ok (newString +:+ slice (pre +:+ s) lastIdx (String.length pre) +:+ r).
Proof.
  revert pre skip newString lastIdx.
  induction s as [|c s IH]; intros pre skip newString lastIdx H0 Hpos.
  - simpl. rewrite !append_nil_r. destruct skip as [|k].
    + reflexivity.
    + rewrite !slice_empty by (specialize (Hpos ltac:(lia)); lia).
      reflexivity.
  - assert (forall k acc last,
              (k = O -> (last <= S (String.length pre))%nat) ->
              (k <> O -> last = (S (String.length pre) + k)%nat) ->
              interpolate_matches (pre +:+ String c s) define
                (find_from s (S (String.length pre)) k) acc last
              = do r <- expand define s k ;
                Ok (acc +:+
                    slice (pre +:+ String c s) last (S (String.length pre))
                    +:+ r)) as IH'.
    { intros k acc last Hk0 Hk. rewrite (append_snoc pre c s).
      specialize (IH (pre +:+ String c "") k acc last).
      rewrite length_append in IH. simpl String.length in IH.
      rewrite Nat.add_1_r in IH. apply IH; assumption. }
    simpl find_from. simpl expand. destruct skip as [|k].
    + specialize (H0 eq_refl).
      assert (interpolate_matches (pre +:+ String c s) define
                (find_from s (S (String.length pre)) O) newString lastIdx
              = do r <- (do r <- expand define s O ; Ok (String c r)) ;
                Ok (newString +:+
                    slice (pre +:+ String c s) lastIdx (String.length pre)
                    +:+ r)) as Hcopy.
      { rewrite IH' by (intros; lia || congruence). rewrite bind_bind.
        rewrite slice_snoc by exact H0.
        destruct (expand define s O); simpl; [| reflexivity ..].
        now rewrite !append_assoc. }
      destruct (is_dollar c); [| exact Hcopy].
      destruct (word_run s) as [|n] eqn:Hrun; [exact Hcopy|].
      simpl interpolate_matches. rewrite slice_name.
      destruct (define !! substring 0 (S n) s) as [val|]; [| reflexivity].
      rewrite IH' by (intros; lia || congruence).
      rewrite (slice_empty _ (String.length pre + 1 + S n)) by lia.
      destruct (expand define s (S n)); simpl; [| reflexivity ..].
      now rewrite !append_assoc.
    + specialize (Hpos ltac:(lia)).
      rewrite IH' by (intros; lia).
      rewrite !slice_empty by lia. reflexivity.
Qed.

Lemma interpolate_string_expand (define : gmap string string) (s : string) :
  interpolate_string s define = expand define s O.
Proof.
  unfold interpolate_string, FindAllStringIndex.
  pose proof (interpolate_matches_expand define s "" O "" O
                ltac:(intros; simpl; lia) ltac:(congruence)) as H.
  unfold_append. simpl String.length in H. rewrite append_nil in H.
  rewrite H. rewrite slice_empty by lia.
  destruct (expand define s O); reflexivity.
Qed.

Lemma expand_no_reference (define : gmap string string) (s : string) :
  no_reference s = true -> expand define s O = Ok s.
Proof.
  induction s as [|c s IH]; simpl; [reflexivity|].
  intros H. apply andb_true_iff in H as [Hc Hs]. rewrite (IH Hs). simpl.
  destruct (is_dollar c); [| reflexivity].
  simpl in Hc. apply Nat.eqb_eq in Hc. rewrite Hc. reflexivity.
Qed.

Lemma word_run_le (s : string) : (word_run s <= String.length s)%nat.
Proof.
  induction s as [|c s IH]; simpl; [lia|]. destruct (is_word c); lia.
Qed.

Lemma word_run_append_stop (a b : string) :
  word_run b = O -> word_run (a +:+ b) = word_run a.
Proof.
  intros Hb. induction a as [|c a IH]; unfold_append; simpl; [exact Hb|].
  destruct (is_word c); [now rewrite IH | reflexivity].
Qed.

Lemma substring_append_l (a b : string) (n : nat) :
  (n <= String.length a)%nat -> substring 0 n (a +:+ b) = substring 0 n a.
Proof.
  revert n. induction a as [|c a IH]; intros n Hn; unfold_append.
  - simpl in Hn. assert (n = O) by lia. subst n. now rewrite !substring_zero.
  - destruct n as [|n]; simpl; [reflexivity|]. rewrite IH; [reflexivity|].
    simpl in Hn. lia.
Qed.

(** The expansion splits where no name can run across. *)
Lemma expand_append (define : gmap string string) (a b : string) (skip : nat) :
  word_run b = O -> (skip <= word_run a)%nat ->
  expand define (a +:+ b) skip
  = do x <- expand define a skip ;
    do y <- expand define b O ;
    Ok (x +:+ y).
Proof.
  intros Hb. revert skip. induction a as [|c a IH]; intros skip Hskip.
  - simpl in Hskip. assert (skip = O) by lia. subst skip. unfold_append.
    simpl. now rewrite bind_Ok.
  - rewrite append_cons. simpl expand. destruct skip as [|k].
    + assert (expand define (a +:+ b) O
              = do x <- expand define a O ;
                do y <- expand define b O ; Ok (x +:+ y)) as H0
        by (apply IH; lia).
      assert ((do r <- expand define (a +:+ b) O ; Ok (String c r))
              = do x <- (do r <- expand define a O ; Ok (String c r)) ;
                do y <- expand define b O ; Ok (x +:+ y)) as Hcopy.
      { rewrite H0. destruct (expand define a O); simpl; [| reflexivity ..].
        destruct (expand define b O); reflexivity. }
      destruct (is_dollar c); [| exact Hcopy].
      rewrite (word_run_append_stop a b Hb).
      destruct (word_run a) as [|n] eqn:Hrun; [exact Hcopy|].
      rewrite substring_append_l
        by (pose proof (word_run_le a); lia).
      destruct (define !! substring 0 (S n) a) as [val|]; [| reflexivity].
      rewrite IH by lia.
      destruct (expand define a (S n)); simpl; [| reflexivity ..].
      destruct (expand define b O); simpl; [| reflexivity ..].
      now rewrite append_assoc.
    + apply IH. simpl in Hskip. destruct (is_word c); lia.
Qed.

Lemma expand_skip_all (define : gmap string string) (s : string) :
  expand define s (String.length s) = Ok "".
Proof. induction s as [|c s IH]; simpl; [reflexivity | exact IH]. Qed.

Lemma substring_all (s : string) : substring 0 (String.length s) s = s.
Proof.
  pose proof (substring_prefix s "") as H. now rewrite append_nil_r in H.
Qed.

Lemma expand_reference (define : gmap string string) (name : string) :
  name <> "" -> word_run name = String.length name ->
  expand define (String "$" name) O
  = match define !! name with
    | Some val => Ok val
    | None => Err (UnknownVariable name)
    end.
Proof.
  intros Hne Hrun. cbn [expand]. change (is_dollar "$") with true. cbv iota.
  rewrite Hrun. destruct (String.length name) as [|n] eqn:Hlen.
  { destruct name; [congruence | discriminate]. }
  rewrite <- Hlen, substring_all, expand_skip_all.
  destruct (define !! name) as [val|]; [| reflexivity].
  simpl. now rewrite append_nil_r.
Qed.

Lemma expand_weaken (define define' : gmap string string) (s : string)
    (skip : nat) (r : string) :
  define ⊆ define' ->
  expand define s skip = Ok r -> expand define' s skip = Ok r.
Proof.
  intros Hsub. revert skip r. induction s as [|c s IH]; intros skip r; simpl.
  - auto.
  - destruct skip as [|k]; [| apply IH].
    assert ((do r0 <- expand define s O ; Ok (String c r0)) = Ok r ->
            (do r0 <- expand define' s O ; Ok (String c r0)) = Ok r) as Hcopy.
    { destruct (expand define s O) as [r0| |] eqn:E; simpl; [| discriminate ..].
      rewrite (IH _ _ E). auto. }
    destruct (is_dollar c); [| exact Hcopy].
    destruct (word_run s) as [|n]; [exact Hcopy|].
    destruct (define !! substring 0 (S n) s) as [val|] eqn:Hval;
      [| discriminate].
    rewrite (lookup_weaken _ _ _ _ Hval Hsub).
    destruct (expand define s (S n)) as [r0| |] eqn:E; simpl; [| discriminate ..].
    rewrite (IH _ _ E). auto.
Qed.

(** ** Laws of the interpolator *)

(** X1.  A tree of strings, sequences and mappings whose strings hold no
    reference (in particular no marker at all) is returned as it is,
    whatever the mapping. *)
Theorem interpolateVars_reference_free (define : gmap string string)
    (v : value) :
  reference_free v -> interpolateVars v define = Ok v.
Proof.
  induction v as [s | l IHl | m IHm | t s] using value_rect'; intros Hfree.
  - inversion Hfree as [? Hs | |]; subst. simpl.
    rewrite interpolate_string_expand, (expand_no_reference _ _ Hs).
    reflexivity.
  - inversion Hfree as [| ? Hl |]; subst. rewrite interpolateVars_VSeq.
    assert (interpolate_seq define l = Ok l) as ->; [| reflexivity].
    clear Hfree. induction IHl as [|x l Hx _ IH]; simpl; [reflexivity|].
    apply Forall_cons in Hl as [Hfx Hfl].
    rewrite (Hx Hfx). simpl. now rewrite (IH Hfl).
  - inversion Hfree as [| | ? Hm]; subst. rewrite interpolateVars_VMap.
    assert (interpolate_map define m = Ok m) as ->; [| reflexivity].
    clear Hfree. induction IHm as [|[k x] m Hx _ IH]; simpl; [reflexivity|].
    apply Forall_cons in Hm as [Hfx Hfm]. simpl in Hx, Hfx.
    rewrite (Hx Hfx). simpl. now rewrite (IH Hfm).
  - inversion Hfree.
Qed.

(** X2.  Interpolation of a string distributes over a cut of the string
    at any point where the right part does not begin with a word
    character: the left part is interpolated, then the right part, and
    the results are joined; the first error met is returned. *)
Theorem interpolate_string_append (define : gmap string string)
    (a b : string) :
  word_run b = O ->
  interpolate_string (a +:+ b) define
  = do x <- interpolate_string a define ;
    do y <- interpolate_string b define ;
    Ok (x +:+ y).
Proof.
  intros Hb. rewrite !interpolate_string_expand.
  apply expand_append; [exact Hb | lia].
Qed.

(** X3.  A reference to a name the mapping holds is replaced by the
    value of the name, copied as it is (a marker inside the value is not
    read again), between the interpolations of the text before and of
    the text after the reference. *)
Theorem interpolate_string_substitutes (define : gmap string string)
    (pre name post val : string) :
  name <> "" ->
  word_run name = String.length name ->
  word_run post = O ->
  define !! name = Some val ->
  interpolate_string (pre +:+ String "$" (name +:+ post)) define
  = do x <- interpolate_string pre define ;
    do y <- interpolate_string post define ;
    Ok (x +:+ val +:+ y).
Proof.
  intros Hne Hrun Hpost Hval. rewrite !interpolate_string_expand.
  rewrite expand_append by (reflexivity || lia).
  change (String "$" (name +:+ post)) with (String "$" name +:+ post).
  rewrite (expand_append define (String "$" name) post O Hpost) by lia.
  rewrite (expand_reference define name Hne Hrun), Hval.
  destruct (expand define pre O); simpl; [| reflexivity ..].
  destruct (expand define post O); reflexivity.
Qed.

(** X4.  What a value interpolates to under a mapping, it interpolates
    to under every mapping that extends it: binding one more variable
    changes no interpolation that went well. *)
Theorem interpolateVars_weaken (define define' : gmap string string)
    (v r : value) :
  define ⊆ define' ->
  interpolateVars v define = Ok r ->
  interpolateVars v define' = Ok r.
Proof.
  intros Hsub. revert r.
  induction v as [s | l IHl | m IHm | t s] using value_rect'; intros r.
  - simpl. rewrite !interpolate_string_expand.
    destruct (expand define s O) as [x| |] eqn:E; simpl; [| discriminate ..].
    now rewrite (expand_weaken _ _ _ _ _ Hsub E).
  - rewrite !interpolateVars_VSeq.
    destruct (interpolate_seq define l) as [l'| |] eqn:E; simpl;
      [| discriminate ..].
    enough (interpolate_seq define' l = Ok l') as -> by auto.
    apply interpolate_seq_ok. apply interpolate_seq_ok in E.
    clear r. induction E as [|x y l l' Hxy _ IH]; constructor.
    + apply Forall_cons in IHl as [Hx _]. now apply Hx.
    + apply IH. now apply Forall_cons in IHl as [_ ?].
  - rewrite !interpolateVars_VMap.
    destruct (interpolate_map define m) as [m'| |] eqn:E; simpl;
      [| discriminate ..].
    enough (interpolate_map define' m = Ok m') as -> by auto.
    apply interpolate_map_ok. apply interpolate_map_ok in E.
    clear r. induction E as [|x y m m' [Hk Hxy] _ IH]; constructor.
    + apply Forall_cons in IHm as [Hx _]. split; [exact Hk | now apply Hx].
    + apply IH. now apply Forall_cons in IHm as [_ ?].
  - discriminate.
Qed.

(** X5.  What the interpolator returns is a tree of strings, sequences
    and mappings: no leaf of another type is ever handed on to the
    translator. *)
Theorem interpolateVars_strings_only (define : gmap string string)
    (v r : value) :
  interpolateVars v define = Ok r -> strings_only r.
Proof.
  revert r. induction v as [s | l IHl | m IHm | t s] using value_rect';
    intros r.
  - simpl. destruct (interpolate_string s define); simpl; [| discriminate ..].
    intros [= <-]. constructor.
  - intros H. apply interpolateVars_VSeq_inv in H as (l' & -> & _ & Hl').
    constructor. induction Hl' as [|x y l l' Hxy _ IH]; constructor.
    + apply Forall_cons in IHl as [Hx _]. now apply Hx.
    + apply IH. now apply Forall_cons in IHl as [_ ?].
  - rewrite interpolateVars_VMap.
    destruct (interpolate_map define m) as [m'| |] eqn:E; simpl;
      [| discriminate ..].
    intros [= <-]. apply interpolate_map_ok in E. constructor.
    induction E as [|x y m m' [_ Hxy] _ IH]; constructor.
    + apply Forall_cons in IHm as [Hx _]. now apply Hx.
    + apply IH. now apply Forall_cons in IHm as [_ ?].
  - discriminate.
Qed.

(** ** [Script.Interpolate] *)

Lemma interpolateVars_VMap_result (define : gmap string string)
    (m : list (string * value)) :
  (exists m', interpolateVars (VMap m) define = Ok (VMap m')) \/
  (exists e, interpolateVars (VMap m) define = Err e).
Proof.
  destruct (interpolateVars (VMap m) define) as [r | e | p] eqn:E.
  - apply interpolateVars_VMap_inv in E as (m' & -> & _). eauto.
  - eauto.
  - now apply interpolateVars_no_panic in E.
Qed.

(** The loop, with the actions before [idx] already replaced. *)
Lemma Interpolate_loop_spec (define : gmap string string)
    (todo done : list (list (string * value))) :
  match Interpolate_loop define todo (length done) (done ++ todo) with
  | (Ok _, actions) =>
      exists todo',
        actions = done ++ todo' /\
        Forall2 (fun a a' => interpolateVars (VMap a) define = Ok (VMap a'))
          todo todo'
  | (Err e, actions) =>
      exists pre pre' a post,
        todo = pre ++ a :: post /\
        Forall2 (fun a a' => interpolateVars (VMap a) define = Ok (VMap a'))
          pre pre' /\
        interpolateVars (VMap a) define = Err e /\
        actions = done ++ pre' ++ a :: post
  | (Panic _, _) => False
  end.
Proof.
  revert done. induction todo as [|a todo IH]; intros done;
    cbn [Interpolate_loop].
  - exists []. split; [reflexivity | constructor].
  - destruct (interpolateVars_VMap_result define a) as [[a' Ha] | [e Ha]];
      rewrite Ha.
    + assert (<[length done := a']> (done ++ a :: todo)
              = (done ++ [a']) ++ todo) as ->.
      { rewrite insert_app_r_alt by lia. rewrite Nat.sub_diag. simpl.
        now rewrite <- app_assoc. }
      specialize (IH (done ++ [a'])).
      rewrite length_app in IH. simpl in IH. rewrite Nat.add_1_r in IH.
      destruct (Interpolate_loop define todo (S (length done))
                  ((done ++ [a']) ++ todo)) as [[[] | e | p] actions].
      * destruct IH as (todo' & -> & Hall). exists (a' :: todo').
        split; [now rewrite <- app_assoc | now constructor].
      * destruct IH as (pre & pre' & b & post & -> & Hpre & Hb & ->).
        exists (a :: pre), (a' :: pre'), b, post.
        split; [reflexivity|]. split; [now constructor|].
        split; [exact Hb | now rewrite <- app_assoc].
      * exact IH.
    + exists [], [], a, todo.
      split; [reflexivity|]. split; [constructor|]. split; [exact Ha | reflexivity].
Qed.

(** X6.  [Interpolate] returns no error exactly when every action of the
    script interpolates; the script then holds, in the same order, the
    interpolated actions, and the same [Define] mapping. *)
Theorem Interpolate_ok (s : Script) (actions' : list (list (string * value))) :
  Interpolate s = (Ok tt, {| Define := Define s; Actions := actions' |}) <->
  Forall2 (fun a a' => interpolateVars (VMap a) (Define s) = Ok (VMap a'))
    (Actions s) actions'.
Proof.
  unfold Interpolate.
  pose proof (Interpolate_loop_spec (Define s) (Actions s) []) as H.
  cbn [List.length app] in H.
  destruct (Interpolate_loop (Define s) (Actions s) 0 (Actions s))
    as [[[] | e | p] actions]; [| | contradiction].
  - destruct H as (todo' & -> & Hall). cbn [app]. split.
    + now intros [= <-].
    + intros Hall'. do 2 f_equal.
      revert Hall'. generalize actions'. clear actions'.
      induction Hall as [|a a1 l l1 Ha _ IH]; intros l2 Hl2;
        inversion Hl2 as [|? a2 ? l2' Ha2 Hl2']; subst; [reflexivity|].
      rewrite Ha in Ha2. injection Ha2 as <-. f_equal. now apply IH.
  - destruct H as (pre & pre' & a & post & Heq & Hpre & Ha & ->).
    split; [discriminate|]. intros Hall. exfalso. rewrite Heq in Hall.
    apply Forall2_app_inv_l in Hall as (l1 & l2 & _ & Hl2 & _).
    inversion Hl2 as [|? a2 ? ? Ha2 _]; subst. congruence.
Qed.

(** X7.  [Interpolate] is not all or nothing: when an action fails to
    interpolate after others that did, the error of that action is
    returned and the script is left with the actions before it already
    replaced by their interpolations, the failing action and those after
    it as they were. *)
Theorem Interpolate_fails_midway (s : Script)
    (pre pre' : list (list (string * value))) (a : list (string * value))
    (post : list (list (string * value))) (e : error) :
  Actions s = pre ++ a :: post ->
  Forall2 (fun a a' => interpolateVars (VMap a) (Define s) = Ok (VMap a'))
    pre pre' ->
  interpolateVars (VMap a) (Define s) = Err e ->
  Interpolate s
  = (Err e, {| Define := Define s; Actions := pre' ++ a :: post |}).
Proof.
  intros Hs Hpre Ha. unfold Interpolate.
  pose proof (Interpolate_loop_spec (Define s) (Actions s) []) as H.
  cbn [List.length app] in H.
  destruct (Interpolate_loop (Define s) (Actions s) 0 (Actions s))
    as [[[] | e0 | p] actions]; [| | contradiction].
  - exfalso. destruct H as (todo' & _ & Hall). rewrite Hs in Hall.
    apply Forall2_app_inv_l in Hall as (l1 & l2 & _ & Hl2 & _).
    inversion Hl2; subst. congruence.
  - destruct H as (pre0 & pre0' & a0 & post0 & Heq & Hpre0 & Ha0 & ->).
    rewrite Hs in Heq.
    assert (forall (p1 p2 : list (list (string * value))) p1' p2' x y q1 q2,
              p1 ++ x :: q1 = p2 ++ y :: q2 ->
              Forall2 (fun a a' =>
                         interpolateVars (VMap a) (Define s) = Ok (VMap a'))
                p1 p1' ->
              Forall2 (fun a a' =>
                         interpolateVars (VMap a) (Define s) = Ok (VMap a'))
                p2 p2' ->
              (forall r, interpolateVars (VMap x) (Define s) <> Ok r) ->
              (forall r, interpolateVars (VMap y) (Define s) <> Ok r) ->
              p1' = p2' /\ x = y /\ q1 = q2) as Hsame.
    { intros p1 p2 p1' p2' x y q1 q2 Hcat H1. revert p2 p2' Hcat.
      induction H1 as [|u u' p1 p1' Hu _ IH]; intros p2 p2' Hcat H2 Hx Hy.
      - destruct H2 as [|v v' p2 p2' Hv _]; [now injection Hcat|].
        injection Hcat as <- _. now destruct (Hx _ Hv).
      - destruct H2 as [|v v' p2 p2' Hv H2].
        + injection Hcat as -> _. now destruct (Hy _ Hu).
        + injection Hcat as <- Hcat.
          destruct (IH _ _ Hcat H2 Hx Hy) as (-> & -> & ->).
          split; [| auto]. f_equal. congruence. }
    destruct (Hsame _ _ _ _ _ _ _ _ Heq Hpre Hpre0) as (-> & -> & ->);
      [congruence | congruence |].
    cbn [app]. do 2 f_equal. congruence.
Qed.

(** ** Decimal numbers *)

Lemma digit_of_digit (d : N) :
  (d < 10)%N -> digit_of (ascii_of_N (48 + d)) = Some (Z.of_N d).
Proof.
  intros Hd. unfold digit_of.
  rewrite N_ascii_embedding by lia.
  destruct ((48 <=? 48 + d) && (48 + d <=? 57))%N eqn:E.
  - f_equal. lia.
  - apply andb_false_iff in E as [E | E]; apply N.leb_gt in E; lia.
Qed.

Lemma parse_digits_of (fuel : nat) (n : N) (acc : string) :
  (n < 2 ^ N.of_nat fuel)%N ->
  parse_digits (digits_of fuel n acc) 0 = parse_digits acc (Z.of_N n).
Proof.
  revert n acc. induction fuel as [|fuel IH]; intros n acc Hn.
  - simpl in Hn. assert (n = 0%N) by lia. subst n. reflexivity.
  - cbn [digits_of]. cbv zeta.
    assert (parse_digits (String (ascii_of_N (48 + n mod 10)) acc)
              (Z.of_N (n / 10))
            = parse_digits acc (Z.of_N n)) as Hstep.
    { cbn [parse_digits]. rewrite digit_of_digit
        by (apply N.mod_lt; lia).
      f_equal. rewrite (N.div_mod n 10) at 3 by lia. lia. }
    destruct (N.eqb_spec (n / 10) 0) as [Hz | Hnz].
    + rewrite <- Hstep, Hz. reflexivity.
    + rewrite IH; [exact Hstep|].
      rewrite Nat2N.inj_succ, N.pow_succ_r' in Hn.
      apply N.Div0.div_lt_upper_bound. lia.
Qed.

Lemma digit_char_range (d : N) :
  (d < 10)%N -> (48 <= N_of_ascii (ascii_of_N (48 + d)) <= 57)%N.
Proof. intros Hd. rewrite N_ascii_embedding; lia. Qed.

Lemma digits_of_head (fuel : nat) (n : N) (acc : string) :
  exists c s, digits_of (S fuel) n acc = String c s /\
    (48 <= N_of_ascii c <= 57)%N.
Proof.
  revert n acc. induction fuel as [|fuel IH]; intros n acc.
  - cbn [digits_of]. cbv zeta.
    exists (ascii_of_N (48 + n mod 10)), acc.
    split; [now destruct (n / 10 =? 0)%N|].
    apply digit_char_range, N.mod_lt. lia.
  - remember (S fuel) as f. cbn [digits_of]. cbv zeta.
    destruct (n / 10 =? 0)%N.
    + exists (ascii_of_N (48 + n mod 10)), acc. split; [reflexivity|].
      apply digit_char_range, N.mod_lt. lia.
    + subst f. apply IH.
Qed.

Lemma N_size_nat_bound (n : N) : (n < 2 ^ N.of_nat (S (N.size_nat n)))%N.
Proof.
  destruct n as [|p]; [reflexivity|].
  rewrite Nat2N.inj_succ, N.pow_succ_r'.
  assert (N.pos p < 2 ^ N.of_nat (N.size_nat (N.pos p)))%N; [| lia].
  simpl N.size_nat. induction p as [p IH | p IH |]; simpl Pos.size_nat.
  - rewrite Nat2N.inj_succ, N.pow_succ_r'. lia.
  - rewrite Nat2N.inj_succ, N.pow_succ_r'. lia.
  - reflexivity.
Qed.

(** What [fmt] prints for an integer of the range of [int], [Atoi]
    reads back. *)
Lemma Atoi_fmt_d (z : Z) :
  - 2 ^ 63 <= z <= 2 ^ 63 - 1 -> Atoi (fmt_d z) = Some z.
Proof.
  intros Hz. unfold fmt_d. destruct (Z.ltb_spec z 0) as [Hneg | Hpos].
  - destruct (digits_of_head (N.size_nat (Z.to_N (- z))) (Z.to_N (- z)) "")
      as (c & s & Hd & Hc).
    pose proof (parse_digits_of _ _ "" (N_size_nat_bound (Z.to_N (- z)))) as Hp.
    rewrite Hd in *. unfold Atoi. change (is_minus "-") with true.
    cbn [orb]. cbv iota. rewrite Hp. cbn [parse_digits].
    rewrite Z2N.id by lia.
    destruct (Z.leb_spec (- 2 ^ 63) (- - z)); [| lia].
    destruct (Z.leb_spec (- - z) (2 ^ 63 - 1)); [| lia].
    simpl. f_equal. lia.
  - destruct (digits_of_head (N.size_nat (Z.to_N z)) (Z.to_N z) "")
      as (c & s & Hd & Hc).
    pose proof (parse_digits_of _ _ "" (N_size_nat_bound (Z.to_N z))) as Hp.
    rewrite Hd in *. unfold Atoi.
    assert (is_minus c = false) as -> by (apply N.eqb_neq; lia).
    assert (is_plus c = false) as -> by (apply N.eqb_neq; lia).
    cbn [orb]. cbv iota. rewrite Hp. cbn [parse_digits].
    rewrite Z2N.id by lia.
    destruct (Z.leb_spec (- 2 ^ 63) z); [| lia].
    destruct (Z.leb_spec z (2 ^ 63 - 1)); [| lia].
    reflexivity.
Qed.

(** ** More on the resolver *)

Section ResolverMore.

Context {W : Type}.
Variable SelectUser : string -> W -> result string * W.
Variable FindMe : W -> result string * W.
Variable FindUser : string -> W -> result string * W.

Local Abbreviation choose_user := (choose_user SelectUser FindMe FindUser).
Local Abbreviation SetupArgs_visit :=
  (SetupArgs_visit SelectUser FindMe FindUser).
Local Abbreviation SetupArgs_loop :=
  (SetupArgs_loop SelectUser FindMe FindUser).
Local Abbreviation SetupArgs := (SetupArgs SelectUser FindMe FindUser).

(** In a resolution that ends well, a variable among the keys was
    visited, with the directive it had at the start, and keeps what the
    visit gave it. *)
Lemma SetupArgs_visited (define define' : gmap string string)
    (args iter : list string) (key : string) (w w' : W) :
  NoDup iter -> key ∈ iter ->
  SetupArgs define args iter w = (Ok define', w') ->
  exists define0 w0 define1 w1,
    define0 !! key = define !! key /\
    SetupArgs_visit args key define0 w0 = (Ok define1, w1) /\
    define' !! key = define1 !! key.
Proof.
  intros Hnd Hin Hok. unfold SetupArgs in Hok.
  pose proof (SetupArgs_keys_Permutation define iter) as Hp.
  eapply SetupArgs_loop_visited; [| | exact Hok]; now rewrite Hp.
Qed.

Lemma SetupArgs_visit_literal (args : list string) (key : string)
    (define : gmap string string) (w : W) (c : ascii) (rest : string) :
  define !! key = Some (String c rest) -> is_tilde c = false ->
  SetupArgs_visit args key define w = (Ok define, w).
Proof.
  intros Hkey Hc. unfold SetupArgs_visit. rewrite Hkey.
  cbn [default from_option id]. now rewrite Hc.
Qed.

Lemma SetupArgs_visit_dom (args : list string) (key : string)
    (define define1 : gmap string string) (w w1 : W) :
  is_Some (define !! key) ->
  SetupArgs_visit args key define w = (Ok define1, w1) ->
  dom define1 = dom define.
Proof.
  intros Hkey. apply elem_of_dom in Hkey.
  unfold SetupArgs_visit, set_name.
  assert (forall v, dom (<[key := v]> define) = dom define) as Hins
    by (intros v; rewrite dom_insert_L; apply subseteq_union_1_L;
        now apply singleton_subseteq_l).
  destruct (default "" (define !! key)) as [|c varname]; [discriminate|].
  destruct (is_tilde c); [| now intros [= <- <-]].
  destruct varname as [|c' rest]; [discriminate|].
  destruct (is_tilde c'); [intros [= <- <-]; apply Hins|].
  destruct (String.eqb (String c' rest) "choose_user").
  { destruct (choose_user key w) as [[name | e | p] w2]; try discriminate.
    intros [= <- <-]. apply Hins. }
  destruct (String.eqb (String c' rest) "me").
  { destruct (FindMe w) as [[name | e | p] w2]; try discriminate.
    intros [= <- <-]. apply Hins. }
  destruct (Atoi (String c' rest)) as [ival|]; [| discriminate].
  destruct (Z.of_nat (length args) <? ival); [discriminate|].
  destruct (index args (ival - 1)); [| discriminate].
  intros [= <- <-]. apply Hins.
Qed.

(** X8.  Resolution binds the variables of the mapping and no other:
    when it ends well, the resolved mapping has the keys the mapping
    had. *)
Theorem SetupArgs_keeps_keys (define define' : gmap string string)
    (args iter : list string) (w w' : W) :
  Forall (fun key => is_Some (define !! key)) iter ->
  SetupArgs define args iter w = (Ok define', w') ->
  dom define' = dom define.
Proof.
  intros Hiter. unfold SetupArgs.
  rewrite <- (SetupArgs_keys_Permutation define iter) in Hiter.
  assert (forall keys d w0,
            Forall (fun key => key ∈ dom d) keys ->
            SetupArgs_loop args keys d w0 = (Ok define', w') ->
            dom define' = dom d) as Hloop.
  { induction keys as [|k keys IH]; intros d w0 Hkeys.
    - now intros [= <- <-].
    - rewrite SetupArgs_loop_cons.
      apply Forall_cons in Hkeys as [Hk Hkeys].
      destruct (SetupArgs_visit args k d w0) as [[d1 | e | p] w1] eqn:E;
        [| discriminate ..].
      apply SetupArgs_visit_dom in E; [| now apply elem_of_dom].
      intros Hrest. rewrite <- E. apply (IH d1 w1); [| exact Hrest].
      now rewrite E. }
  apply Hloop. eapply Forall_impl; [exact Hiter|].
  intros k Hk. now apply elem_of_dom.
Qed.

(** X9.  A mapping whose values are all literals (each begins with a
    byte other than the marker) resolves to itself, with no call to the
    user lookup, whatever the arguments. *)
Theorem SetupArgs_literals_only (define : gmap string string)
    (args iter : list string) (w : W) :
  Forall (fun key =>
            exists c rest,
              define !! key = Some (String c rest) /\ is_tilde c = false)
    iter ->
  SetupArgs define args iter w = (Ok define, w).
Proof.
  intros Hiter. unfold SetupArgs.
  rewrite <- (SetupArgs_keys_Permutation define iter) in Hiter.
  induction Hiter as [|k keys (c & rest & Hk & Hc) _ IH]; [reflexivity|].
  rewrite SetupArgs_loop_cons.
  now rewrite (SetupArgs_visit_literal _ _ _ _ _ _ Hk Hc).
Qed.

(** X10.  A literal variable comes out of every resolution that ends
    well with the value it had, whatever the other variables are. *)
Theorem SetupArgs_keeps_literal (define define' : gmap string string)
    (args iter : list string) (key : string) (w w' : W)
    (c : ascii) (rest : string) :
  NoDup iter ->
  define !! key = Some (String c rest) ->
  is_tilde c = false ->
  SetupArgs define args iter w = (Ok define', w') ->
  define' !! key = Some (String c rest).
Proof.
  intros Hnd Hkey Hc Hok.
  destruct (decide (key ∈ iter)) as [Hin | Hnot].
  - destruct (SetupArgs_visited _ _ _ _ _ _ _ Hnd Hin Hok)
      as (d0 & w0 & d1 & w1 & H0 & Hv & H').
    rewrite Hkey in H0.
    rewrite (SetupArgs_visit_literal _ _ _ _ _ _ H0 Hc) in Hv.
    injection Hv as <- <-. congruence.
  - unfold SetupArgs in Hok. rewrite <- Hkey.
    eapply SetupArgs_loop_frame; [| exact Hok].
    now rewrite (SetupArgs_keys_Permutation define iter).
Qed.

(** X11.  What an escaped directive leaves is never read as a directive
    again: a variable whose value is two markers and a rest comes out of
    every resolution that ends well bound to that rest, even when the
    rest is itself the text of a directive. *)
Theorem SetupArgs_escaped_not_reread (define define' : gmap string string)
    (args iter : list string) (key : string) (w w' : W) (rest : string) :
  NoDup iter -> key ∈ iter ->
  define !! key = Some (String "~" (String "~" rest)) ->
  SetupArgs define args iter w = (Ok define', w') ->
  define' !! key = Some rest.
Proof.
  intros Hnd Hin Hkey Hok.
  destruct (SetupArgs_visited _ _ _ _ _ _ _ Hnd Hin Hok)
    as (d0 & w0 & d1 & w1 & H0 & Hv & H').
  rewrite Hkey in H0.
  rewrite (SetupArgs_visit_escaped SelectUser FindMe FindUser _ _ _ _ _ H0)
    in Hv.
  injection Hv as <- <-. rewrite H'. apply lookup_insert_eq.
Qed.

(** X12.  For every [n] from 1 to the number of arguments, the
    directive written as the marker and [n] in decimal binds the
    variable to the [n]-th argument. *)
Theorem SetupArgs_decimal_directive (args : list string) (key : string)
    (define : gmap string string) (w : W) (n : nat) :
  (1 <= n <= length args)%nat ->
  Z.of_nat (length args) < 2 ^ 63 ->
  define !! key = Some (String "~" (fmt_d (Z.of_nat n))) ->
  exists arg,
    args !! (n - 1)%nat = Some arg /\
    SetupArgs_visit args key define w = (Ok (<[key := arg]> define), w).
Proof.
  intros Hn Hlen Hkey.
  assert (Atoi (fmt_d (Z.of_nat n)) = Some (Z.of_nat n)) as Hatoi
    by (apply Atoi_fmt_d; lia).
  rewrite (SetupArgs_visit_number SelectUser FindMe FindUser
             _ _ _ _ _ _ Hkey Hatoi).
  destruct (Z.ltb_spec (Z.of_nat (length args)) (Z.of_nat n)); [lia|].
  unfold index. destruct (Z.ltb_spec (Z.of_nat n - 1) 0); [lia|].
  replace (Z.to_nat (Z.of_nat n - 1)) with (n - 1)%nat by lia.
  destruct (lookup_lt_is_Some_2 args (n - 1)%nat) as [arg Harg]; [lia|].
  exists arg. now rewrite Harg.
Qed.

Lemma SetupArgs_visit_me (args : list string) (key : string)
    (define : gmap string string) (w : W) :
  define !! key = Some "~me" ->
  SetupArgs_visit args key define w = set_name key define (FindMe w).
Proof. intros Hkey. unfold SetupArgs_visit. now rewrite Hkey. Qed.

Lemma SetupArgs_visit_choose_user (args : list string) (key : string)
    (define : gmap string string) (w : W) :
  define !! key = Some "~choose_user" ->
  SetupArgs_visit args key define w
  = set_name key define (choose_user key w).
Proof. intros Hkey. unfold SetupArgs_visit. now rewrite Hkey. Qed.

(** X13.  A variable whose directive is [~me] comes out of every
    resolution that ends well bound to the name the lookup of the
    current user returned. *)
Theorem SetupArgs_me (define define' : gmap string string)
    (args iter : list string) (key : string) (w w' : W) :
  NoDup iter -> key ∈ iter ->
  define !! key = Some "~me" ->
  SetupArgs define args iter w = (Ok define', w') ->
  exists w0 name w1,
    FindMe w0 = (Ok name, w1) /\ define' !! key = Some name.
Proof.
  intros Hnd Hin Hkey Hok.
  destruct (SetupArgs_visited _ _ _ _ _ _ _ Hnd Hin Hok)
    as (d0 & w0 & d1 & w1 & H0 & Hv & H').
  rewrite Hkey in H0. rewrite (SetupArgs_visit_me _ _ _ _ H0) in Hv.
  unfold set_name in Hv.
  destruct (FindMe w0) as [[name | e | p] w2] eqn:E; [| discriminate ..].
  injection Hv as <- <-. exists w0, name, w2.
  split; [exact E|]. rewrite H'. apply lookup_insert_eq.
Qed.

(** X14.  A variable whose directive is [~choose_user] comes out of
    every resolution that ends well bound to a name found as follows:
    the user was prompted with [Select user for <variable>:]; when the
    choice was [Me] the name is that of the current user, otherwise it
    is the name of the user looked up by the choice. *)
Theorem SetupArgs_choose_user (define define' : gmap string string)
    (args iter : list string) (key : string) (w w' : W) :
  NoDup iter -> key ∈ iter ->
  define !! key = Some "~choose_user" ->
  SetupArgs define args iter w = (Ok define', w') ->
  exists w0 choice w1 name w2,
    SelectUser ("Select user for " +:+ key +:+ ":") w0 = (Ok choice, w1) /\
    (if String.eqb choice "Me" then FindMe w1 else FindUser choice w1)
      = (Ok name, w2) /\
    define' !! key = Some name.
Proof.
  intros Hnd Hin Hkey Hok.
  destruct (SetupArgs_visited _ _ _ _ _ _ _ Hnd Hin Hok)
    as (d0 & w0 & d1 & w1 & H0 & Hv & H').
  rewrite Hkey in H0. rewrite (SetupArgs_visit_choose_user _ _ _ _ H0) in Hv.
  unfold set_name, choose_user in Hv.
  destruct (SelectUser ("Select user for " +:+ key +:+ ":") w0)
    as [[choice | e | p] w2] eqn:Es; [| discriminate ..].
  change OptionMe with "Me" in Hv.
  destruct (if String.eqb choice "Me" then FindMe w2 else FindUser choice w2)
    as [[name | e | p] w3] eqn:Ef; [| discriminate ..].
  injection Hv as <- <-. exists w0, choice, w2, name, w3.
  split; [exact Es|]. split; [exact Ef|]. rewrite H'. apply lookup_insert_eq.
Qed.

(** X15.  A directive that is no escape, no built-in name and no number
    makes the visit of its variable fail with the unknown-built-in error
    for the whole value, and no resolution that visits it ends well. *)
Theorem SetupArgs_unknown_directive (define : gmap string string)
    (args : list string) (key : string) (w : W) (c : ascii) (rest : string) :
  define !! key = Some (String "~" (String c rest)) ->
  is_tilde c = false ->
  String c rest <> "choose_user" ->
  String c rest <> "me" ->
  Atoi (String c rest) = None ->
  SetupArgs_visit args key define w
    = (Err (UnknownBuiltin (String "~" (String c rest))), w) /\
  forall iter define' w0 w',
    NoDup iter -> key ∈ iter ->
    SetupArgs define args iter w0 <> (Ok define', w').
Proof.
  intros Hkey Hc Hcu Hme Hatoi.
  apply String.eqb_neq in Hcu, Hme.
  assert (forall d0 w0, d0 !! key = Some (String "~" (String c rest)) ->
            SetupArgs_visit args key d0 w0
            = (Err (UnknownBuiltin (String "~" (String c rest))), w0))
    as Hvisit.
  { intros d0 w0 H0. unfold SetupArgs_visit. rewrite H0.
    cbn [default from_option id]. change (is_tilde "~") with true. cbv iota.
    now rewrite Hc, Hcu, Hme, Hatoi. }
  split; [now apply Hvisit|].
  intros iter define' w0 w' Hnd Hin Hok.
  destruct (SetupArgs_visited _ _ _ _ _ _ _ Hnd Hin Hok)
    as (d0 & w1 & d1 & w2 & H0 & Hv & _).
  rewrite Hkey in H0. rewrite (Hvisit _ _ H0) in Hv. discriminate.
Qed.

End ResolverMore.

(** ** More on the translator and the driver *)

Section DriverMore.

Context {W : Type}.
Variable json_Marshal : list (string * value) -> result string.
Variable Find : string -> result bool.
Variable ExecuteC : list string -> W -> result string * W.

Local Abbreviation custom_loop := (custom_loop json_Marshal).
Local Abbreviation translate_field := (translate_field json_Marshal).
Local Abbreviation translate := (translate json_Marshal).
Local Abbreviation run_action := (run_action json_Marshal Find ExecuteC).
Local Abbreviation run_actions := (run_actions json_Marshal Find ExecuteC).



Lemma fold_left_positional (items : list value) (args : list string) :
  fold_left (fun args arg => args ++ [fmt_Sprint arg]) items args
  = args ++ map fmt_Sprint items.
Proof.
  revert args. induction items as [|x items IH]; intros args; simpl.
  - now rewrite app_nil_r.
  - now rewrite IH, <- app_assoc.
Qed.

(** X17.  The [args] field gives positional arguments, with no flag
    before them: the rendered elements of a sequence, in order, or the
    one rendered value when it is not a sequence.  In a whole action
    that translates they stand in the vector where the field stands in
    the action. *)
Theorem translate_args_field (args : list string) :
  (forall items,
     translate_field "args" (VSeq items) args
     = Ok (args ++ map fmt_Sprint items)) /\
  (forall v, (forall items, v <> VSeq items) ->
     translate_field "args" v args = Ok (args ++ [fmt_Sprint v])) /\
  (forall pre post v args0 out,
     translate (pre ++ ("args", v) :: post) args0 = Ok out ->
     exists before after,
       out = before ++
             match v with
             | VSeq items => map fmt_Sprint items
             | _ => [fmt_Sprint v]
             end ++ after).
Proof.
  assert (forall items args,
            translate_field "args" (VSeq items) args
            = Ok (args ++ map fmt_Sprint items)) as Hseq.
  { intros items args'. unfold translate_field. cbn [String.eqb Ascii.eqb].
    simpl. now rewrite fold_left_positional. }
  assert (forall v args, (forall items, v <> VSeq items) ->
            translate_field "args" v args = Ok (args ++ [fmt_Sprint v]))
    as Hone.
  { intros v args' Hv. destruct v; try reflexivity. now destruct (Hv l). }
  split; [intros; apply Hseq | split; [intros; now apply Hone|]].
  intros pre post v args0 out H.
  apply translate_field_in_place in H
    as (before & flags & after & _ & Hfield & ->).
  exists before, after. f_equal. f_equal.
  destruct v as [s | items | m | t s].
  2: rewrite Hseq in Hfield.
  1,3,4: rewrite Hone in Hfield by discriminate.
  all: injection Hfield as Hfield; now apply app_inv_head in Hfield.
Qed.

Lemma translate_field_not_custom (key : string) (v : value)
    (args : list string) :
  key <> "custom" -> exists more, translate_field key v args = Ok (args ++ more).
Proof.
  intros Hkey. apply String.eqb_neq in Hkey. unfold translate_field.
  rewrite Hkey.
  destruct (String.eqb key "action"); [exists []; now rewrite app_nil_r|].
  destruct (String.eqb key "args").
  - destruct v; eauto. rewrite fold_left_positional. eauto.
  - destruct v; rewrite <- ?app_assoc; eauto.
    rewrite fold_left_flags. eauto.
Qed.

(** X18.  Translation can fail at the [custom] field only: an action
    with no field of that name always translates, to the vector it was
    given followed by the arguments of its fields. *)
Theorem translate_without_custom (action : list (string * value))
    (args : list string) :
  Forall (fun field => field.1 <> "custom") action ->
  exists more, translate action args = Ok (args ++ more).
Proof.
  intros Hall. revert args.
  induction Hall as [|[k v] action Hk _ IH]; intros args; simpl.
  - exists []. now rewrite app_nil_r.
  - destruct (translate_field_not_custom k v args Hk) as [more1 ->]. simpl.
    destruct (IH (args ++ more1)) as [more ->].
    exists (more1 ++ more). now rewrite app_assoc.
Qed.





End DriverMore.

(** ** The user lookup *)

Lemma validUsers_fold (l : list User) (acc : list string) :
  fold_left
    (fun validUsers t =>
       if Active t then validUsers ++ [getFullName t] else validUsers) l acc
  = acc ++ map getFullName (List.filter Active l).
Proof.
  revert acc. induction l as [|u l IH]; intros acc; simpl.
  - now rewrite app_nil_r.
  - rewrite IH. destruct (Active u); [| reflexivity].
    simpl. now rewrite <- app_assoc.
Qed.

Lemma getOptions_Permutation (ul : UserLookup) (last : bool) :
  Permutation (getOptions ul last)
    (optionSearch :: optionCancel :: lineBreak ::
     AdditionalOptions ul ++
     map getFullName (List.filter Active (default [] (users ul)))).
Proof.
  unfold getOptions. rewrite validUsers_fold. cbn [app].
  set (names := map getFullName (List.filter Active (default [] (users ul)))).
  destruct last; cbn [app]; apply perm_skip;
    rewrite <- !app_assoc; cbn [app].
  - rewrite (Permutation_app_comm names). cbn [app].
    rewrite <- (Permutation_cons_append (AdditionalOptions ul) optionCancel).
    cbn [app]. apply perm_swap.
  - rewrite (Permutation_app_comm (AdditionalOptions ul)). cbn [app].
    do 2 apply perm_skip. apply Permutation_app_comm.
Qed.

(** X21.  The options of the selection begin with the search; they are,
    in an order that depends on [last] only, the search, the cancel, the
    line, the additional options and the full names of the active users
    of the list, each once for each such user: a user who is not active
    is not offered. *)
Theorem getOptions_offers (ul : UserLookup) (last : bool) :
  hd_error (getOptions ul last) = Some optionSearch /\
  Permutation (getOptions ul last)
    (optionSearch :: optionCancel :: lineBreak ::
     AdditionalOptions ul ++
     map getFullName (List.filter Active (default [] (users ul)))).
Proof.
  split; [| apply getOptions_Permutation].
  unfold getOptions. now destruct last.
Qed.

Section UserLookupFacts.

Context {W : Type}.
Variable ToLower : string -> string.
Variable ProxyUserSearch :
  string -> string -> W -> result (option (list User)) * W.
Variable AskSelect : string -> list string -> W -> result string * W.
Variable AskInput : string -> W -> result string * W.

Lemma find_user_Some (l : list User) (query : string) (u : User) :
  find_user ToLower l query = Some u <->
  exists before after,
    l = before ++ u :: after /\
    matches_user ToLower query u = true /\
    Forall (fun v => matches_user ToLower query v = false) before.
Proof.
  induction l as [|x l IH]; simpl.
  - split; [discriminate|]. intros ([|] & after & Heq & _); discriminate.
  - destruct (matches_user ToLower query x) eqn:Ex.
    + split.
      * intros [= <-]. exists [], l. repeat split; [exact Ex | constructor].
      * intros ([|y before] & after & Heq & Hu & Hbefore).
        -- now injection Heq as <- _.
        -- injection Heq as <- _. apply Forall_cons in Hbefore as [Hy _].
           congruence.
    + rewrite IH. split.
      * intros (before & after & -> & Hu & Hbefore).
        exists (x :: before), after. repeat split; [exact Hu|].
        now constructor.
      * intros ([|y before] & after & Heq & Hu & Hbefore).
        -- injection Heq as <- _. congruence.
        -- injection Heq as <- ->. apply Forall_cons in Hbefore as [_ ?].
           eauto.
Qed.

Lemma find_user_None (l : list User) (query : string) :
  find_user ToLower l query = None <->
  Forall (fun v => matches_user ToLower query v = false) l.
Proof.
  induction l as [|x l IH]; simpl.
  - split; [constructor | reflexivity].
  - destruct (matches_user ToLower query x) eqn:Ex.
    + split; [discriminate|]. intros H. apply Forall_cons in H as [? _].
      congruence.
    + rewrite IH. split; [now constructor|].
      intros H. now apply Forall_cons in H as [_ ?].
Qed.

(** X22.  With the users loaded, [FindUser] calls no collaborator and
    leaves the lookup as it is; it returns the first user of the list
    one of whose display name, name, email and full name equals the
    query once both are in lower case, and the not-found error, for the
    query in lower case, exactly when there is no such user. *)
Theorem FindUser_first_match (ul : UserLookup) (l : list User)
    (query : string) (w : W) :
  users ul = Some l ->
  (forall u,
     FindUser ToLower ProxyUserSearch ul query w = (Found u, ul, w) <->
     exists before after,
       l = before ++ u :: after /\
       matches_user ToLower (ToLower query) u = true /\
       Forall (fun v => matches_user ToLower (ToLower query) v = false)
         before) /\
  (FindUser ToLower ProxyUserSearch ul query w
     = (Failed (UserNotFound (ToLower query)), ul, w) <->
   Forall (fun v => matches_user ToLower (ToLower query) v = false) l).
Proof.
  intros Hl. unfold FindUser. rewrite Hl. cbv zeta.
  cbn [default from_option id]. rewrite Hl. cbn [default from_option id].
  split.
  - intros u. rewrite <- find_user_Some.
    destruct (find_user ToLower l (ToLower query)); split; congruence.
  - rewrite <- find_user_None.
    destruct (find_user ToLower l (ToLower query)); split; congruence.
Qed.

(** X23.  Every user of the loaded list is found by his display name,
    name, email or full name, whatever their case and whether he is
    active or not: for such a query [FindUser] returns a user of the
    list (the first that matches), never the not-found error. *)
Theorem FindUser_finds_listed (ul : UserLookup) (l : list User) (u : User)
    (query : string) (w : W) :
  users ul = Some l ->
  u ∈ l ->
  ToLower query = ToLower (DisplayName u) \/
  ToLower query = ToLower (Name u) \/
  ToLower query = ToLower (Email u) \/
  ToLower query = ToLower (getFullName u) ->
  exists u',
    FindUser ToLower ProxyUserSearch ul query w = (Found u', ul, w) /\
    u' ∈ l /\ matches_user ToLower (ToLower query) u' = true.
Proof.
  intros Hl Hu Hq. unfold FindUser. rewrite Hl. cbv zeta.
  cbn [default from_option id]. rewrite Hl. cbn [default from_option id].
  destruct (find_user ToLower l (ToLower query)) as [u'|] eqn:E.
  - exists u'. split; [reflexivity|].
    apply find_user_Some in E as (before & after & -> & Hm & _).
    split; [| exact Hm]. apply elem_of_app. right. left.
  - exfalso. apply find_user_None in E. rewrite Forall_forall in E.
    specialize (E u Hu). unfold matches_user in E.
    destruct Hq as [Hq | [Hq | [Hq | Hq]]]; rewrite Hq in E;
      rewrite String.eqb_refl in E; simpl in E;
      rewrite ?orb_true_r in E; discriminate.
Qed.

(** X24.  Whatever the user and the server do and however many rounds
    the selection takes, the choice [SelectUser] returns is neither the
    search nor the cancel. *)
Theorem SelectUser_choice (rounds : nat) (ul ul' : UserLookup)
    (prompt ans : string) (w w' : W) :
  SelectUser ProxyUserSearch AskSelect AskInput rounds ul prompt w
    = Some (Found ans, ul', w') ->
  ans <> optionSearch /\ ans <> optionCancel.
Proof.
  assert (forall last ul0 w0,
            SelectUser_loop ProxyUserSearch AskSelect AskInput
              rounds prompt last ul0 w0 = Some (Found ans, ul', w') ->
            ans <> optionSearch /\ ans <> optionCancel) as Hloop.
  { induction rounds as [|rounds IH]; intros last ul0 w0; simpl;
      [discriminate|].
    destruct (AskSelect prompt (getOptions ul0 last) w0)
      as [[a | e | p] w1]; [| discriminate ..].
    destruct (String.eqb_spec a optionCancel) as [-> | Hcancel];
      [discriminate|].
    destruct (String.eqb_spec a optionSearch) as [-> | Hsearch]; simpl.
    - destruct (getSearchKeyword AskInput ul0 w1) as [[[[] | | | ] ul2] w2];
        [| discriminate ..].
      destruct (updateUsersList ProxyUserSearch ul2 w2)
        as [[[[] | | | ] ul3] w3]; [| discriminate ..].
      apply IH.
    - intros [= <- <- <-]. auto. }
  unfold SelectUser, init.
  destruct (users ul); [apply Hloop|].
  destruct (updateUsersList ProxyUserSearch ul w) as [[[[] | | | ] ul1] w1];
    [apply Hloop | discriminate ..].
Qed.

(** X30.  Every user the selection offers can be looked up: with the
    users loaded, an option of the selection that is not the search, the
    cancel, the line or an additional option is the full name of a user,
    and [FindUser] on it returns a user of the list. *)
Theorem FindUser_finds_offered (ul : UserLookup) (l : list User)
    (last : bool) (option : string) (w : W) :
  users ul = Some l ->
  option ∈ getOptions ul last ->
  option <> optionSearch -> option <> optionCancel -> option <> lineBreak ->
  option ∉ AdditionalOptions ul ->
  exists u,
    FindUser ToLower ProxyUserSearch ul option w = (Found u, ul, w) /\
    u ∈ l.
Proof.
  intros Hl Hin Hs Hc Hb Ha.
  rewrite (getOptions_Permutation ul last), Hl in Hin.
  cbn [default from_option id] in Hin.
  rewrite !elem_of_cons, elem_of_app in Hin.
  destruct Hin as [? | [? | [? | [? | Hin]]]]; try contradiction.
  apply list_elem_of_In, in_map_iff in Hin as (u & <- & Hu).
  apply filter_In in Hu as [Hu _].
  unfold FindUser. rewrite Hl. cbv zeta.
  cbn [default from_option id]. rewrite Hl. cbn [default from_option id].
  destruct (find_user ToLower l (ToLower (getFullName u))) as [u'|] eqn:E.
  - exists u'. split; [reflexivity|].
    apply find_user_Some in E as (before & after & -> & _).
    apply elem_of_app. right. left.
  - exfalso. apply find_user_None in E. rewrite Forall_forall in E.
    apply list_elem_of_In in Hu. specialize (E u Hu).
    unfold matches_user in E. rewrite String.eqb_refl in E.
    rewrite !orb_true_r in E. discriminate.
Qed.

End UserLookupFacts.

(** ** The arguments of [tclog] *)

(** X25.  [parseArgsAndFlags] indexes no argument that is not there:
    with no argument the key, the build number and the file name are
    empty, zero and empty; with one, the key is made of the first; with
    two or more, the second must parse as an integer, or the error of the
    build number is returned; the file name is the third when there is
    one, and further arguments are ignored. *)
Theorem parseArgsAndFlags_cases (GetJiraIssueKey : string -> string -> string)
    (debug : bool) (args : list string) (project : string) :
  tclog.parseArgsAndFlags GetJiraIssueKey (Ok debug) args project
  = match args with
    | [] =>
        Ok {| tclog.key := ""; tclog.buildnum := 0; tclog.filename := "";
              tclog.debug := debug |}
    | [k] =>
        Ok {| tclog.key := GetJiraIssueKey project k; tclog.buildnum := 0;
              tclog.filename := ""; tclog.debug := debug |}
    | k :: b :: rest =>
        match Atoi b with
        | None => Err (External "build number must be a number")
        | Some n =>
            Ok {| tclog.key := GetJiraIssueKey project k; tclog.buildnum := n;
                  tclog.filename := default "" (head rest);
                  tclog.debug := debug |}
        end
    end.
Proof.
  destruct args as [|k [|b [|f rest]]]; try reflexivity;
    unfold tclog.parseArgsAndFlags, tclog.at_index; cbn [length Nat.leb];
    cbn [lookup list_lookup bind]; destruct (Atoi b); reflexivity.
Qed.

(** X26.  A build number written in decimal is read back as it is: for
    every integer of the range of [int], the arguments key, number in
    decimal, file name give the parameters with that number. *)
Theorem parseArgsAndFlags_decimal (GetJiraIssueKey : string -> string -> string)
    (debug : bool) (k f : string) (extra : list string) (project : string)
    (n : Z) :
  - 2 ^ 63 <= n <= 2 ^ 63 - 1 ->
  tclog.parseArgsAndFlags GetJiraIssueKey (Ok debug)
    (k :: fmt_d n :: f :: extra) project
  = Ok {| tclog.key := GetJiraIssueKey project k; tclog.buildnum := n;
          tclog.filename := f; tclog.debug := debug |}.
Proof.
  intros Hn. unfold tclog.parseArgsAndFlags, tclog.at_index.
  cbn [length Nat.leb lookup list_lookup bind].
  rewrite (Atoi_fmt_d n Hn). reflexivity.
Qed.

(** ** The search of an artifact *)

Lemma scan_files_found (n : nat) (filename : string)
    (files : list teamcity.File) (queue : list string) (path : string) :
  teamcity.scan_files n filename files queue = teamcity.TcOk (inl path) <->
  exists before file after,
    files = before ++ file :: after /\
    Forall (fun f => teamcity.Name f <> filename /\
                     is_Some (teamcity.strip n (teamcity.Href f))) before /\
    teamcity.Name file = filename /\
    teamcity.strip n (teamcity.Href file) = Some path.
Proof.
  revert queue. induction files as [|x files IH]; intros queue; simpl.
  - split; [discriminate|]. intros ([|] & ? & ? & Heq & _); discriminate.
  - destruct (teamcity.strip n (teamcity.Href x)) as [p|] eqn:Es.
    + destruct (String.eqb_spec (teamcity.Name x) filename) as [Hx | Hx].
      * split.
        -- intros [= <-]. exists [], x, files. repeat split; auto.
        -- intros ([|y before] & file & after & Heq & Hb & Hn & Hs).
           ++ injection Heq as <- _. congruence.
           ++ injection Heq as <- _. apply Forall_cons in Hb as [[Hy _] _].
              contradiction.
      * rewrite IH. split.
        -- intros (before & file & after & -> & Hb & Hn & Hs).
           exists (x :: before), file, after.
           split; [reflexivity|]. split; [| auto].
           constructor; [| exact Hb]. split; [exact Hx | eauto].
        -- intros ([|y before] & file & after & Heq & Hb & Hn & Hs).
           ++ injection Heq as <- _. contradiction.
           ++ injection Heq as <- ->. apply Forall_cons in Hb as [_ Hb].
              eauto 10.
    + split; [discriminate|].
      intros ([|y before] & file & after & Heq & Hb & Hn & Hs).
      * injection Heq as <- _. congruence.
      * injection Heq as <- _. apply Forall_cons in Hb as [[_ [? Hy]] _].
        congruence.
Qed.

Lemma scan_files_queue (n : nat) (filename : string)
    (files : list teamcity.File) (queue queue' : list string) :
  teamcity.scan_files n filename files queue = teamcity.TcOk (inr queue') ->
  exists paths, queue' = queue ++ paths /\ length paths = length files.
Proof.
  revert queue. induction files as [|x files IH]; intros queue; simpl.
  - intros [= <-]. exists []. now rewrite app_nil_r.
  - destruct (teamcity.strip n (teamcity.Href x)) as [p|]; [| discriminate].
    destruct (String.eqb (teamcity.Name x) filename); [discriminate|].
    intros H. apply IH in H as (paths & -> & Hlen).
    exists (p :: paths). split; [now rewrite <- app_assoc | simpl; lia].
Qed.

Lemma scan_files_panic (n : nat) (filename : string)
    (files : list teamcity.File) (queue : list string) (p : teamcity.tc_panic) :
  teamcity.scan_files n filename files queue = teamcity.TcPanic p ->
  p = teamcity.SliceBounds.
Proof.
  revert queue. induction files as [|x files IH]; intros queue; simpl;
    [discriminate|].
  destruct (teamcity.strip n (teamcity.Href x)); [| now intros [= <-]].
  destruct (String.eqb (teamcity.Name x) filename); [discriminate | apply IH].
Qed.

Section FindArtifactFacts.

Context {W : Type}.
Variable httpGet : string -> W -> result (Z * string) * W.
Variable Unmarshal : string -> result (list teamcity.File).
Variable URL : string.

Local Abbreviation FindArtifact_loop :=
  (teamcity.FindArtifact_loop httpGet Unmarshal URL).
Local Abbreviation FindArtifact :=
  (teamcity.FindArtifact httpGet Unmarshal URL).

(** X27.  The queue of the search is never read when empty: however
    many rounds the search takes and whatever the server answers,
    [FindArtifact] does not panic on [queue[0]]. *)
Theorem FindArtifact_queue_never_empty (rounds : nat) (buildId : Z)
    (filename : string) (w w' : W) :
  FindArtifact rounds buildId filename w
    <> Some (teamcity.TcPanic teamcity.QueueIndex, w').
Proof.
  unfold teamcity.FindArtifact.
  assert (forall queue w0, queue <> [] ->
            FindArtifact_loop rounds buildId filename queue w0
            <> Some (teamcity.TcPanic teamcity.QueueIndex, w')) as Hloop.
  { induction rounds as [|rounds IH]; intros queue w0 Hq;
      cbn [teamcity.FindArtifact_loop]; [discriminate|].
    destruct queue as [|parentPath queue]; [congruence|].
    destruct (httpGet (teamcity.artifactsURL URL buildId parentPath) w0)
      as [[[status buf] | e | p] w1]; [| discriminate ..].
    cbv zeta.
    destruct (if status =? 404
              then if String.eqb parentPath ""
                   then Some (teamcity.NoArtifacts buildId) else None
              else if negb (status =? 200)
                   then Some (teamcity.ReadingArtifacts buf) else None);
      [discriminate|].
    destruct (Unmarshal buf) as [files | |]; [| discriminate ..].
    destruct (teamcity.scan_files _ filename files queue)
      as [[path | queue'] | | p] eqn:Es; try discriminate.
    - destruct queue' as [|q queue']; [discriminate|]. cbn [length Nat.eqb].
      apply IH. discriminate.
    - apply scan_files_panic in Es. subst p. discriminate. }
  apply Hloop. discriminate.
Qed.

(** X28.  A path [FindArtifact] returns is that of an entry the server
    listed under the name asked for: the last request of the search was
    answered by a listing in which the first entry of that name has the
    returned path as its [href] without the first bytes, as many as the
    metadata prefix has. *)
Theorem FindArtifact_sound (rounds : nat) (buildId : Z) (filename : string)
    (w w' : W) (path : string) :
  FindArtifact rounds buildId filename w = Some (teamcity.TcOk path, w') ->
  exists parentPath w0 status body before file after,
    httpGet (teamcity.artifactsURL URL buildId parentPath) w0
      = (Ok (status, body), w') /\
    Unmarshal body = Ok (before ++ file :: after) /\
    Forall (fun f => teamcity.Name f <> filename) before /\
    teamcity.Name file = filename /\
    teamcity.strip (String.length (teamcity.metadataPrefix buildId))
      (teamcity.Href file) = Some path.
Proof.
  unfold teamcity.FindArtifact. generalize [""]. revert w.
  induction rounds as [|rounds IH]; intros w queue;
    cbn [teamcity.FindArtifact_loop]; [discriminate|].
  destruct queue as [|parentPath queue]; [discriminate|].
  destruct (httpGet (teamcity.artifactsURL URL buildId parentPath) w)
    as [[[status buf] | e | p] w1] eqn:Eg; [| discriminate ..].
  cbv zeta.
  destruct (if status =? 404
            then if String.eqb parentPath ""
                 then Some (teamcity.NoArtifacts buildId) else None
            else if negb (status =? 200)
                 then Some (teamcity.ReadingArtifacts buf) else None);
    [discriminate|].
  destruct (Unmarshal buf) as [files | |] eqn:Eu; [| discriminate ..].
  destruct (teamcity.scan_files _ filename files queue)
    as [[found | queue'] | | p] eqn:Es; try discriminate.
  - intros [= -> ->].
    apply scan_files_found in Es as (before & file & after & -> & Hb & Hn & Hs).
    exists parentPath, w, status, buf, before, file, after.
    repeat split; auto. eapply Forall_impl; [exact Hb|]. now intros f [? _].
  - destruct (length queue' =? 0)%nat; [discriminate|]. apply IH.
Qed.

(** X29.  One request is enough when the artifact is at the top: if the
    listing of the build is served with status 200 and its first entry
    of the name asked for comes after entries whose [href] is at least
    as long as the metadata prefix, [FindArtifact] returns the path of
    that entry, after that one request, whatever rounds it is given
    beyond the first. *)
Theorem FindArtifact_at_top (rounds : nat) (buildId : Z) (filename : string)
    (w w1 : W) (body : string)
    (before : list teamcity.File) (file : teamcity.File)
    (after : list teamcity.File) (path : string) :
  httpGet (teamcity.artifactsURL URL buildId "") w = (Ok (200, body), w1) ->
  Unmarshal body = Ok (before ++ file :: after) ->
  Forall (fun f => teamcity.Name f <> filename /\
                   is_Some (teamcity.strip
                              (String.length (teamcity.metadataPrefix buildId))
                              (teamcity.Href f))) before ->
  teamcity.Name file = filename ->
  teamcity.strip (String.length (teamcity.metadataPrefix buildId))
    (teamcity.Href file) = Some path ->
  FindArtifact (S rounds) buildId filename w = Some (teamcity.TcOk path, w1).
Proof.
  intros Hget Hbody Hbefore Hname Hstrip.
  unfold teamcity.FindArtifact. cbn [teamcity.FindArtifact_loop].
  rewrite Hget. cbv zeta. change (200 =? 404) with false.
  change (negb (200 =? 200)) with false. cbv iota. rewrite Hbody.
  assert (teamcity.scan_files
            (String.length (teamcity.metadataPrefix buildId)) filename
            (before ++ file :: after) []
          = teamcity.TcOk (inl path)) as ->; [| reflexivity].
  apply scan_files_found. eauto 10.
Qed.

End FindArtifactFacts.

(** ** The other packages, run *)

Example getOptions_first_round :
  getOptions (stub_lookup (Some [alice; bob; carol])) false
  = ["[Search...]"; "Me"; "Cancel"; "----------";
     "Alice Adams"; "Bob Brown (bob)"].
Proof. vm_compute. reflexivity. Qed.

Example getOptions_after_search :
  getOptions (stub_lookup (Some [alice; bob; carol])) true
  = ["[Search...]"; "Alice Adams"; "Bob Brown (bob)"; "----------";
     "Me"; "Cancel"].
Proof. vm_compute. reflexivity. Qed.

Example FindUser_by_full_name :
  FindUser lower_ascii stub_ProxyUserSearch (stub_lookup None)
    "BOB BROWN (bob)" []
  = (Found bob, stub_lookup (Some [alice; bob; carol]), []).
Proof. vm_compute. reflexivity. Qed.

Example FindUser_inactive :
  FindUser lower_ascii stub_ProxyUserSearch (stub_lookup None) "Carol" []
  = (Found carol, stub_lookup (Some [alice; bob; carol]), []).
Proof. vm_compute. reflexivity. Qed.

Example FindUser_unknown :
  FindUser lower_ascii stub_ProxyUserSearch (stub_lookup None) "Dave" []
  = (Failed (UserNotFound "dave"), stub_lookup (Some [alice; bob; carol]), []).
Proof. vm_compute. reflexivity. Qed.

Example SelectUser_after_a_search :
  SelectUser stub_ProxyUserSearch stub_AskSelect stub_AskInput 2
    (stub_lookup None) "Select user for owner:"
    ["[Search...]"; "bob"; "Bob Brown (bob)"]
  = Some (Found "Bob Brown (bob)",
          set_users (set_searchKeyword (stub_lookup (Some [alice; bob; carol]))
                       "bob")
            (Some [alice; bob; carol]),
          []).
Proof. vm_compute. reflexivity. Qed.

Example SelectUser_cancel :
  SelectUser stub_ProxyUserSearch stub_AskSelect stub_AskInput 1
    (stub_lookup None) "Select user for owner:" ["Cancel"]
  = Some (Exited 0, stub_lookup (Some [alice; bob; carol]), []).
Proof. vm_compute. reflexivity. Qed.

Example FindArtifact_one_level_down :
  teamcity.FindArtifact stub_httpGet stub_Unmarshal "https://tc" 3 7
    "run.log" []
  = Some (teamcity.TcOk "logs/run.log",
          ["https://tc/app/rest/builds/id:7/artifacts";
           "https://tc/app/rest/builds/id:7/artifacts/children/logs"]).
Proof. vm_compute. reflexivity. Qed.

Example fmt_d_examples :
  fmt_d 0 = "0" /\ fmt_d 863155 = "863155" /\ fmt_d (-42) = "-42".
Proof. repeat split; vm_compute; reflexivity. Qed.

(** ** The laws at concrete inputs *)

Lemma interpolateVars_reference_free_witness :
  reference_free
    (VSeq [VStr "cost: 5$ or $ 5"; VMap [("k", VStr "plain")]]) /\
  interpolateVars
    (VSeq [VStr "cost: 5$ or $ 5"; VMap [("k", VStr "plain")]]) ∅
  = Ok (VSeq [VStr "cost: 5$ or $ 5"; VMap [("k", VStr "plain")]]).
Proof.
  assert (reference_free
            (VSeq [VStr "cost: 5$ or $ 5"; VMap [("k", VStr "plain")]]))
    as Hfree by (repeat constructor).
  split; [exact Hfree|].
  exact (interpolateVars_reference_free ∅ _ Hfree).
Defined.

Lemma interpolate_string_append_witness :
  word_run " for $who" = O /\
  interpolate_string ("Build $name" +:+ " for $who") {["name" := "widget"]}
  = do x <- interpolate_string "Build $name" {["name" := "widget"]} ;
    do y <- interpolate_string " for $who" {["name" := "widget"]} ;
    Ok (x +:+ y).
Proof.
  split; [reflexivity|].
  apply (interpolate_string_append {["name" := "widget"]}
           "Build $name" " for $who").
  reflexivity.
Defined.

Lemma interpolate_string_substitutes_witness :
  interpolate_string ("Build " +:+ String "$" ("name" +:+ "!"))
    {["name" := "a $name"]}
  = do x <- interpolate_string "Build " {["name" := "a $name"]} ;
    do y <- interpolate_string "!" {["name" := "a $name"]} ;
    Ok (x +:+ "a $name" +:+ y).
Proof.
  assert (({["name" := "a $name"]} : gmap string string) !! "name"
          = Some "a $name") as Hval by (vm_compute; reflexivity).
  apply (interpolate_string_substitutes _ "Build " "name" "!" "a $name");
    [discriminate | reflexivity | reflexivity | exact Hval].
Defined.

Lemma interpolateVars_weaken_witness :
  ({["a" := "1"]} : gmap string string)
    ⊆ <["issue_key" := "PROJ-7"]> {["a" := "1"]} /\
  interpolateVars (VSeq [VStr "$a"]) (<["issue_key" := "PROJ-7"]> {["a" := "1"]})
  = Ok (VSeq [VStr "1"]).
Proof.
  assert (({["a" := "1"]} : gmap string string)
            ⊆ <["issue_key" := "PROJ-7"]> {["a" := "1"]}) as Hsub
    by (apply insert_subseteq; vm_compute; reflexivity).
  split; [exact Hsub|].
  apply (interpolateVars_weaken {["a" := "1"]} _ (VSeq [VStr "$a"]) _ Hsub).
  vm_compute. reflexivity.
Defined.

Lemma interpolateVars_strings_only_witness :
  strings_only (VMap [("k", VSeq [VStr "1"])]).
Proof.
  apply (interpolateVars_strings_only {["a" := "1"]}
           (VMap [("k", VSeq [VStr "$a"])])).
  vm_compute. reflexivity.
Defined.

Lemma Interpolate_fails_midway_witness :
  Interpolate
    {| Define := {["a" := "1"]};
       Actions := [[("x", VStr "$a")]; [("y", VStr "$b")]; [("z", VStr "$a")]] |}
  = (Err (UnknownVariable "b"),
     {| Define := {["a" := "1"]};
        Actions := [[("x", VStr "1")]; [("y", VStr "$b")]; [("z", VStr "$a")]] |}).
Proof.
  set (s := {| Define := {["a" := "1"]};
               Actions := [[("x", VStr "$a")]; [("y", VStr "$b")];
                           [("z", VStr "$a")]] |}).
  assert (Actions s = [[("x", VStr "$a")]] ++ [("y", VStr "$b")]
                        :: [[("z", VStr "$a")]]) as Hs by reflexivity.
  assert (Forall2
            (fun a a' => interpolateVars (VMap a) (Define s) = Ok (VMap a'))
            [[("x", VStr "$a")]] [[("x", VStr "1")]]) as Hpre
    by (repeat constructor).
  assert (interpolateVars (VMap [("y", VStr "$b")]) (Define s)
          = Err (UnknownVariable "b")) as Ha by (vm_compute; reflexivity).
  exact (Interpolate_fails_midway s _ _ _ _ _ Hs Hpre Ha).
Defined.

Lemma SetupArgs_keeps_keys_witness :
  dom (<["a" := "jdoe"]> {["b" := "widget"]} : gmap string string)
  = dom (<["a" := "~me"]> {["b" := "~1"]} : gmap string string).
Proof.
  apply (SetupArgs_keeps_keys stub_SelectUser stub_FindMe stub_FindUser
           (<["a" := "~me"]> {["b" := "~1"]}) _ ["widget"] ["a"; "b"] [] []).
  - repeat constructor; eexists; vm_compute; reflexivity.
  - vm_compute. reflexivity.
Defined.

Lemma SetupArgs_literals_only_witness :
  stub_SetupArgs (<["a" := "plain"]> {["b" := "a~b"]}) [] ["a"; "b"] []
  = (Ok (<["a" := "plain"]> {["b" := "a~b"]}), []).
Proof.
  apply (SetupArgs_literals_only stub_SelectUser stub_FindMe stub_FindUser).
  repeat constructor.
  - exists "p"%char, "lain". split; [vm_compute; reflexivity | reflexivity].
  - exists "a"%char, "~b". split; [vm_compute; reflexivity | reflexivity].
Defined.

Lemma SetupArgs_keeps_literal_witness :
  (<["a" := "plain"]> {["b" := "widget"]} : gmap string string) !! "a"
  = Some "plain".
Proof.
  apply (SetupArgs_keeps_literal stub_SelectUser stub_FindMe stub_FindUser
           (<["a" := "plain"]> {["b" := "~1"]}) _ ["widget"] ["a"; "b"] "a"
           [] [] "p" "lain").
  - apply (bool_decide_unpack _). vm_compute. exact I.
  - vm_compute. reflexivity.
  - reflexivity.
  - vm_compute. reflexivity.
Defined.

Lemma SetupArgs_escaped_not_reread_witness :
  ({["v" := "~1"]} : gmap string string) !! "v" = Some "~1".
Proof.
  apply (SetupArgs_escaped_not_reread stub_SelectUser stub_FindMe stub_FindUser
           {["v" := "~~~1"]} _ ["widget"] ["v"] "v" [] [] "~1").
  - apply (bool_decide_unpack _). vm_compute. exact I.
  - apply (bool_decide_unpack _). vm_compute. exact I.
  - vm_compute. reflexivity.
  - vm_compute. reflexivity.
Defined.

Lemma SetupArgs_decimal_directive_witness :
  exists arg,
    ["widget"; "gadget"] !! 1%nat = Some arg /\
    SetupArgs_visit stub_SelectUser stub_FindMe stub_FindUser
      ["widget"; "gadget"] "v" {["v" := "~2"]} []
    = (Ok (<["v" := arg]> {["v" := "~2"]}), []).
Proof.
  apply (SetupArgs_decimal_directive stub_SelectUser stub_FindMe stub_FindUser
           ["widget"; "gadget"] "v" {["v" := "~2"]} [] 2).
  - simpl. lia.
  - reflexivity.
  - vm_compute. reflexivity.
Defined.

Lemma SetupArgs_me_witness :
  exists w0 name w1,
    stub_FindMe w0 = (Ok name, w1) /\
    ({["v" := "jdoe"]} : gmap string string) !! "v" = Some name.
Proof.
  apply (SetupArgs_me stub_SelectUser stub_FindMe stub_FindUser
           {["v" := "~me"]} _ [] ["v"] "v" [] []).
  - apply (bool_decide_unpack _). vm_compute. exact I.
  - apply (bool_decide_unpack _). vm_compute. exact I.
  - vm_compute. reflexivity.
  - vm_compute. reflexivity.
Defined.

Lemma SetupArgs_choose_user_witness :
  exists w0 choice w1 name w2,
    stub_SelectUser ("Select user for " +:+ "v" +:+ ":") w0 = (Ok choice, w1) /\
    (if String.eqb choice "Me" then stub_FindMe w1 else stub_FindUser choice w1)
      = (Ok name, w2) /\
    ({["v" := "jdoe"]} : gmap string string) !! "v" = Some name.
Proof.
  apply (SetupArgs_choose_user stub_SelectUser stub_FindMe stub_FindUser
           {["v" := "~choose_user"]} _ [] ["v"] "v" [] []).
  - apply (bool_decide_unpack _). vm_compute. exact I.
  - apply (bool_decide_unpack _). vm_compute. exact I.
  - vm_compute. reflexivity.
  - vm_compute. reflexivity.
Defined.

Lemma SetupArgs_unknown_directive_witness :
  SetupArgs_visit stub_SelectUser stub_FindMe stub_FindUser
    ["widget"] "v" {["v" := "~nobody"]} []
  = (Err (UnknownBuiltin "~nobody"), []).
Proof.
  assert (({["v" := "~nobody"]} : gmap string string) !! "v" = Some "~nobody")
    as Hkey by (vm_compute; reflexivity).
  destruct (SetupArgs_unknown_directive stub_SelectUser stub_FindMe
              stub_FindUser {["v" := "~nobody"]} ["widget"] "v" []
              "n" "obody" Hkey) as [Hvisit _];
    [reflexivity | discriminate | discriminate | reflexivity |].
  exact Hvisit.
Defined.


Lemma translate_without_custom_witness :
  exists more,
    translate json_Marshal_strings
      [("action", VStr "label"); ("labels", VSeq [VStr "a"])] ["issue"; "label"]
    = Ok (["issue"; "label"] ++ more).
Proof.
  apply (translate_without_custom json_Marshal_strings).
  repeat constructor; discriminate.
Defined.


Lemma FindUser_first_match_witness :
  FindUser lower_ascii stub_ProxyUserSearch
    (stub_lookup (Some [alice; bob; carol])) "BOB" []
  = (Found bob, stub_lookup (Some [alice; bob; carol]), []).
Proof.
  destruct (FindUser_first_match lower_ascii stub_ProxyUserSearch
              (stub_lookup (Some [alice; bob; carol])) [alice; bob; carol]
              "BOB" [] eq_refl) as [Hfound _].
  apply Hfound. exists [alice], [carol].
  repeat split; repeat constructor.
Defined.

Lemma FindUser_finds_listed_witness :
  exists u',
    FindUser lower_ascii stub_ProxyUserSearch
      (stub_lookup (Some [alice; bob; carol])) "Carol Clark (CAROL)" []
    = (Found u', stub_lookup (Some [alice; bob; carol]), []) /\
    u' ∈ [alice; bob; carol] /\
    matches_user lower_ascii (lower_ascii "Carol Clark (CAROL)") u' = true.
Proof.
  apply (FindUser_finds_listed lower_ascii stub_ProxyUserSearch
           (stub_lookup (Some [alice; bob; carol])) [alice; bob; carol] carol).
  - reflexivity.
  - apply list_elem_of_In. simpl. auto.
  - right. right. right. reflexivity.
Defined.

Lemma SelectUser_choice_witness :
  "Bob Brown (bob)" <> optionSearch /\ "Bob Brown (bob)" <> optionCancel.
Proof.
  apply (SelectUser_choice stub_ProxyUserSearch stub_AskSelect stub_AskInput 2
           (stub_lookup None)
           (set_users (set_searchKeyword
                         (stub_lookup (Some [alice; bob; carol])) "bob")
              (Some [alice; bob; carol]))
           "Select user for owner:" "Bob Brown (bob)"
           ["[Search...]"; "bob"; "Bob Brown (bob)"] []).
  vm_compute. reflexivity.
Defined.

Lemma parseArgsAndFlags_decimal_witness :
  tclog.parseArgsAndFlags (fun project arg => project +:+ "-" +:+ arg)
    (Ok false) ["1"; "863155"; "usertest_addcols.log"] "ISSUE"
  = Ok {| tclog.key := "ISSUE-1"; tclog.buildnum := 863155;
          tclog.filename := "usertest_addcols.log"; tclog.debug := false |}.
Proof.
  apply (parseArgsAndFlags_decimal (fun project arg => project +:+ "-" +:+ arg)
           false "1" "usertest_addcols.log" [] "ISSUE" 863155).
  lia.
Defined.

Lemma FindArtifact_sound_witness :
  exists parentPath w0 status body before file after,
    stub_httpGet (teamcity.artifactsURL "https://tc" 7 parentPath) w0
      = (Ok (status, body),
         ["https://tc/app/rest/builds/id:7/artifacts";
          "https://tc/app/rest/builds/id:7/artifacts/children/logs"]) /\
    stub_Unmarshal body = Ok (before ++ file :: after) /\
    Forall (fun f => teamcity.Name f <> "run.log") before /\
    teamcity.Name file = "run.log" /\
    teamcity.strip (String.length (teamcity.metadataPrefix 7))
      (teamcity.Href file) = Some "logs/run.log".
Proof.
  apply (FindArtifact_sound stub_httpGet stub_Unmarshal "https://tc" 3 7
           "run.log" []).
  vm_compute. reflexivity.
Defined.

Lemma FindArtifact_at_top_witness :
  teamcity.FindArtifact stub_httpGet stub_Unmarshal "https://tc" 1 7 "logs" []
  = Some (teamcity.TcOk "logs", ["https://tc/app/rest/builds/id:7/artifacts"]).
Proof.
  apply (FindArtifact_at_top stub_httpGet stub_Unmarshal "https://tc" 0 7
           "logs" [] ["https://tc/app/rest/builds/id:7/artifacts"]
           "https://tc/app/rest/builds/id:7/artifacts" []
           {| teamcity.Name := "logs";
              teamcity.Href := "/app/rest/builds/id:7/artifacts/metadata/logs" |}
           []).
  - vm_compute. reflexivity.
  - vm_compute. reflexivity.
  - constructor.
  - reflexivity.
  - vm_compute. reflexivity.
Defined.

Lemma FindUser_finds_offered_witness :
  exists u,
    FindUser lower_ascii stub_ProxyUserSearch
      (stub_lookup (Some [alice; bob; carol])) "Bob Brown (bob)" []
    = (Found u, stub_lookup (Some [alice; bob; carol]), []) /\
    u ∈ [alice; bob; carol].
Proof.
  apply (FindUser_finds_offered lower_ascii stub_ProxyUserSearch
           (stub_lookup (Some [alice; bob; carol])) [alice; bob; carol] true).
  - reflexivity.
  - apply (bool_decide_unpack _). vm_compute. exact I.
  - discriminate.
  - discriminate.
  - discriminate.
  - apply (bool_decide_unpack _). vm_compute. exact I.
Defined.
